(** * Batching of dataset elements (src/contrib/data/batch_dataset.ts)

    A shallow embedding of [BatchDataset], [makeDatasetBatch], [batchConcat]
    and [shapeAndValues], and the properties of the batching pipeline that
    are established on it. *)

From Stdlib Require Import ZArith Lia.
From stdpp Require Import base option list gmap strings fin_maps.

(** ** Errors and outcomes

    The code signals failure by [throw]; an outcome is either a returned
    value or the error thrown. *)

Inductive error : Type :=
  | SanityCheckFailed (key : string)
      (* Error(`Batching failed to get a '${key}' value for each element.`) *)
  | ShapeMismatch
      (* Error('Elements must have the same shape to be batched') *)
  | TypeError
      (* raised by the runtime: Object.keys(undefined), undefined.push *)
  | RangeError
      (* raised by the runtime: TypedArray.prototype.set out of bounds *)
  | InvalidConfiguration
      (* named by the specification only; no statement of the code throws it *)
  | SchemaMismatch
      (* named by the specification only; no statement of the code throws it *)
  | TypeMismatch.
      (* named by the specification only; no statement of the code throws it *)

Inductive outcome (A : Type) : Type :=
  | Ok (a : A)
  | Throw (e : error).
Arguments Ok {A} a.
Arguments Throw {A} e.

Global Instance outcome_ret : MRet outcome := λ A a, Ok a.

Global Instance outcome_bind : MBind outcome := λ A B f m,
  match m with
  | Ok a => f a
  | Throw e => Throw e
  end.

(** A [for (const x of xs) { ... }] or [xs.forEach(...)] loop whose body
    may throw: the loop state is threaded from left to right and the first
    error leaves the loop. *)
Fixpoint forEach {A S} (body : S → A → outcome S) (xs : list A) (s : S)
  : outcome S :=
  match xs with
  | [] => Ok s
  | x :: xs' => s' ← body s x; forEach body xs' s'
  end.

(** ** Values *)

(** Address of a [number[]] object; two values holding the same address are
    the same array. *)
Definition loc := positive.

(** The numeric environment of the runtime: IEEE doubles, the constants
    [+0] and [NaN], the conversion of a double to the nearest float32 (what
    a store to a [Float32Array] does) and the runtime's conversion of a
    string to a number.  The development is parametric in it. *)
Class NumericEnv : Type := {
  number : Type;
  zero : number;
  NaN : number;
  fround : number → number;
  StringToNumber : string → number
}.

Section Values.

Context `{NumericEnv}.

(** Modelled from the spec: [Tensor] (tensor.ts is not part of the sources
    at hand).  The minimal tensor-like value: a shape and a flat readable
    buffer, the latter being what [dataSync()] returns. *)
Record Tensor : Type := mkTensor {
  shape : list nat;
  dataSync : list number
}.

(** [ElementArray = number | number[] | Tensor | string] (types.ts). *)
Inductive ElementArray : Type :=
  | ENumber (x : number)
  | EArray (a : loc)
  | ETensor (t : Tensor)
  | EString (s : string).

(** What sits in the one-element array literal [[array]] of the last
    branch of [shapeAndValues]: the argument is neither a tensor nor an
    array there. *)
Inductive prim : Type :=
  | PNumber (x : number)
  | PString (s : string)
  | PUndefined.

(** The second component returned by [shapeAndValues]: the buffer of a
    tensor, the argument array itself, or a newly built literal. *)
Inductive flat : Type :=
  | TensorData (d : list number)
  | SameArray (a : loc)
  | Literal (ps : list prim).

(** [BatchArray | string[]]: the value of one key of a batch.  A text
    field holds the very sequence the transposition has built, whatever
    its entries are, each of them a value or [undefined]. *)
Inductive BatchValue : Type :=
  | BTensor (t : Tensor)
  | BStrings (ss : list (option ElementArray)).

End Values.

(** A JavaScript value that may be [undefined], as a property read
    [e[key]] or an index read [arrays[0]] yields. *)
Abbreviation jsval := (option ElementArray).

(** The store of [number[]] objects. *)
Abbreviation heap := (gmap loc (list number)).

(** [DatasetElement = {[key: string]: ElementArray}] (types.ts). *)
Abbreviation DatasetElement := (gmap string ElementArray).

(** [DatasetBatch = {[key: string]: BatchArray | string[]}] (types.ts). *)
Abbreviation DatasetBatch := (gmap string BatchValue).

Section Batching.

Context `{NumericEnv}.

(** [Tensor.make(shape, {values})]. *)
Definition Tensor_make (shape : list nat) (values : list number) : Tensor :=
  mkTensor shape values.

(** The product of the entries of a shape, 1 for the empty shape. *)
Definition sizeFromShape (s : list nat) : nat := foldl Nat.mul 1 s.

(** The class invariant of a tensor: its buffer has one entry per cell of
    its shape. *)
Definition tensor_wf (t : Tensor) : Prop :=
  length (dataSync t) = sizeFromShape (shape t).

(** Contents of the array at [a]; every address held by a value is live,
    an address outside the store reads as the empty array. *)
Definition deref (h : heap) (a : loc) : list number := default [] (h !! a).

(** ** [shapeAndValues] *)

Definition shapeAndValues (h : heap) (array : jsval) : list nat * flat :=
  match array with
  | Some (ETensor t) => (shape t, TensorData (dataSync t))
  | Some (EArray a) => ([length (deref h a)], SameArray a)
  | Some (ENumber x) => ([], Literal [PNumber x])
  | Some (EString s) => ([], Literal [PString s])
  | None => ([], Literal [PUndefined])
  end.

(** Reading the entries of a returned buffer in the store [h]. *)
Definition entries (h : heap) (f : flat) : list prim :=
  match f with
  | TensorData d => PNumber <$> d
  | SameArray a => PNumber <$> deref h a
  | Literal ps => ps
  end.

(** ** Typed arrays *)

(** [ToNumber] on the entries met here. *)
Definition ToNumber (p : prim) : number :=
  match p with
  | PNumber x => x
  | PString s => StringToNumber s
  | PUndefined => NaN
  end.

(** The value a [Float32Array] cell holds after [p] is stored in it. *)
Definition toFloat32 (p : prim) : number := fround (ToNumber p).

(** [new Float32Array(n)]. *)
Definition Float32Array (n : nat) : list number := replicate n zero.

(** [target.set(source, offset)]: a [RangeError] when the source does not
    fit, otherwise every entry is converted and stored. *)
Definition Float32Array_set (target : list number) (source : list prim)
    (offset : nat) : outcome (list number) :=
  if decide (offset + length source ≤ length target) then
    Ok (take offset target ++ (toFloat32 <$> source)
          ++ drop (offset + length source) target)
  else Throw RangeError.

(** Modelled from the spec: [util.arraysEqual] (util.ts is not part of
    the sources at hand): [shape != elementShape] is decided entry by
    entry. *)
Fixpoint arraysEqual (n1 n2 : list nat) : bool :=
  match n1, n2 with
  | [], [] => true
  | x :: n1', y :: n2' => Nat.eqb x y && arraysEqual n1' n2'
  | _, _ => false
  end.

(** ** [batchConcat] *)

(** [arrays[0]]: [undefined] when the array is empty. *)
Definition first (arrays : list jsval) : jsval := mjoin (arrays !! 0).

(** [batchShape.reduce((x, y) => x * y)] on [[n].concat(elementShape)]. *)
Definition reduce_mul (n : nat) (elementShape : list nat) : nat :=
  foldl Nat.mul n elementShape.

(** One turn of the loop of [batchConcat]: the state is [resultVals] and
    [offset]. *)
Definition batchConcat_body (h : heap) (elementShape : list nat)
    (st : list number * nat) (a : jsval) : outcome (list number * nat) :=
  let '(resultVals, offset) := st in
  let '(aShape, aVals) := shapeAndValues h a in
  if arraysEqual aShape elementShape then
    resultVals' ← Float32Array_set resultVals (entries h aVals) offset;
    Ok (resultVals', offset + length (entries h aVals))
  else Throw ShapeMismatch.

Definition batchConcat (h : heap) (arrays : list jsval) : outcome Tensor :=
  let '(elementShape, _) := shapeAndValues h (first arrays) in
  let batchShape := length arrays :: elementShape in
  let resultVals := Float32Array (reduce_mul (length arrays) elementShape) in
  '(resultVals', _) ←
    forEach (batchConcat_body h elementShape) arrays (resultVals, 0);
  Ok (Tensor_make batchShape resultVals').

(** The shape and the flat values the code computes for a value. *)
Definition shapeOf (h : heap) (a : jsval) : list nat := (shapeAndValues h a).1.

Definition flatValues (h : heap) (a : jsval) : list prim :=
  entries h (shapeAndValues h a).2.

(** A value whose tensor, if it is one, satisfies the class invariant. *)
Definition value_wf (a : jsval) : Prop :=
  match a with
  | Some (ETensor t) => tensor_wf t
  | _ => True
  end.

(** Slice [i] of a flat buffer cut into consecutive slices of length [n]. *)
Definition slice {A} (n i : nat) (buffer : list A) : list A :=
  take n (drop (i * n) buffer).

(** ** Releasing the records *)

(** Modelled from the spec: [dispose] (globals.ts is not part of the
    sources at hand) releases the underlying resources of the record it
    is given.  The state is the sequence of records released so far, one
    entry per call. *)
Definition released : Type := list DatasetElement.

(** A computation that may throw and may release records. *)
Definition M (A : Type) : Type := released → outcome A * released.

Global Instance M_ret : MRet M := λ A a σ, (Ok a, σ).

Global Instance M_bind : MBind M := λ A B f m σ,
  match m σ with
  | (Ok a, σ') => f a σ'
  | (Throw e, σ') => (Throw e, σ')
  end.

Definition lift {A} (o : outcome A) : M A := λ σ, (o, σ).

Definition dispose (e : DatasetElement) : M () := λ σ, (Ok (), σ ++ [e]).

(** [xs.forEach(f)] for an effectful [f]. *)
Fixpoint forEachM {A} (f : A → M ()) (xs : list A) : M () :=
  match xs with
  | [] => mret ()
  | x :: xs' => _ ← f x; forEachM f xs'
  end.

(** ** [makeDatasetBatch] *)

(** [Object.keys(o)]: the keys of the object, each once; a [TypeError] on
    [undefined].  The keys come in the enumeration order of the map, where
    the runtime has the property order of the object. *)
Definition Object_keys (o : option DatasetElement) : outcome (list string) :=
  match o with
  | Some e => Ok (map_to_list e).*1
  | None => Throw TypeError
  end.

(** [rotated[key].push(value)]. *)
Definition push (rotated : gmap string (list jsval)) (key : string)
    (value : jsval) : outcome (gmap string (list jsval)) :=
  match rotated !! key with
  | Some column => Ok (<[key := column ++ [value]]> rotated)
  | None => Throw TypeError
  end.

(** The body of the last [keys.forEach] of [makeDatasetBatch].  For the
    key [__proto__] the entry of [result] stands for the prototype that
    the assignment sets; it is no own key of the batch (see [ownKeys]). *)
Definition batchKey (h : heap) (elements : list DatasetElement)
    (rotated : gmap string (list jsval)) (result : DatasetBatch)
    (key : string) : outcome DatasetBatch :=
  match rotated !! key with
  | None => Throw TypeError
  | Some column =>
      if decide (length column ≠ length elements) then
        Throw (SanityCheckFailed key)
      else
        match first column with
        | Some (EString _) => Ok (<[key := BStrings column]> result)
        | _ =>
            t ← batchConcat h column;
            Ok (<[key := BTensor t]> result)
        end
  end.

(** The transposition, lines 69 to 78 of the source: every key starts
    with an empty column, then every element pushes its value for every
    key.  The read [e[key]] of a key that [e] does not own is [undefined]
    here; the runtime yields the inherited member instead when the key is
    the name of a member of [Object.prototype] (see [inherits]), a value
    that, like [undefined], is no string, has shape [[]] and is stored as
    [NaN].  For the key [__proto__] the entry of [rotated] stands for the
    prototype of the object, which is what the assignment sets and what
    the reads yield. *)
Definition rotate (keys : list string) (elements : list DatasetElement)
    : outcome (gmap string (list jsval)) :=
  let rotated : gmap string (list jsval) :=
    foldl (λ rotated key, <[key := []]> rotated) ∅ keys in
  forEach (λ rotated e,
    forEach (λ rotated key, push rotated key (e !! key)) keys rotated)
    elements rotated.

Definition makeDatasetBatch (h : heap) (elements : list DatasetElement)
    : M DatasetBatch :=
  let firstElement := elements !! 0 in
  keys ← lift (Object_keys firstElement);
  rotated ← lift (rotate keys elements);
  result ← lift (forEach (batchKey h elements rotated) keys ∅);
  _ ← forEachM dispose elements;
  mret result.

(** The values of one key across the elements, in element order; an
    element without the key contributes [undefined]. *)
Definition column (key : string) (elements : list DatasetElement)
    : list jsval :=
  (λ e : DatasetElement, e !! key) <$> elements.

(** [rotated] holds, for the keys of the template and for no other key,
    the column of the elements. *)
Definition columns_of (keys : list string) (elements : list DatasetElement)
    (rotated : gmap string (list jsval)) : Prop :=
  ∀ k, rotated !! k
       = if decide (k ∈ keys) then Some (column k elements) else None.

(** The value lines 87 to 91 of the source compute for one column. *)
Definition batchField (h : heap) (col : list jsval) : outcome BatchValue :=
  match first col with
  | Some (EString _) => Ok (BStrings col)
  | _ => t ← batchConcat h col; Ok (BTensor t)
  end.


(** ** [BatchDataset] *)

(** Modelled from the spec: [Dataset] and [DataStream] (dataset.ts and
    streams/data_stream.ts are not part of the sources at hand).  The
    upstream source is a pull-based producer of a finite sequence of
    records; a stream is the sequence of its elements in pull order, and
    [getStream()] of a dataset starts a fresh pull sequence. *)
Definition DataStream (A : Type) : Type := list A.

Definition Dataset : Type := list DatasetElement.

Definition Dataset_getStream (d : Dataset) : DataStream DatasetElement := d.

(** Modelled from the spec: [DataStream.map] wraps the stream; the
    mapped function runs when the element at that position is pulled. *)
Definition DataStream_map {A B} (f : A → B) (s : DataStream A)
    : DataStream B := f <$> s.

(** Modelled from the spec: [DataStream.batch] (streams/data_stream.ts
    is not part of the sources at hand), the batching stream stage.
    Records are pulled one at a time into the buffer until [batchSize]
    records have been buffered or the upstream is exhausted.  A buffer
    of [batchSize] records is emitted as one window and the stage goes
    on with an empty buffer; at exhaustion a non-empty partial buffer is
    emitted when [smallLastBatch] holds and discarded otherwise. *)
Fixpoint batch_from {A} (batchSize : Z) (smallLastBatch : bool)
    (buffer : list A) (upstream : DataStream A) : DataStream (list A) :=
  match upstream with
  | [] =>
      if smallLastBatch && bool_decide (0 < length buffer) then [buffer]
      else []
  | x :: upstream' =>
      let buffer' := buffer ++ [x] in
      if bool_decide (Z.of_nat (length buffer') = batchSize) then
        buffer' :: batch_from batchSize smallLastBatch [] upstream'
      else batch_from batchSize smallLastBatch buffer' upstream'
  end.

(** One more window when a partial buffer of [r] records is emitted. *)
Definition partial (slb : bool) (r : nat) : nat :=
  if slb && negb (r =? 0) then 1 else 0.

Definition DataStream_batch {A} (batchSize : Z) (smallLastBatch : bool)
    (upstream : DataStream A) : DataStream (list A) :=
  batch_from batchSize smallLastBatch [] upstream.

Record BatchDataset : Type := mkBatchDataset {
  base : Dataset;
  batchSize : Z;
  smallLastBatch : bool
}.

(** The constructor: its body is empty; [smallLastBatch = true] is the
    default of the omitted third argument. *)
Definition constructor (base : Dataset) (batchSize : Z)
    (smallLastBatch : option bool) : outcome BatchDataset :=
  Ok (mkBatchDataset base batchSize (default true smallLastBatch)).

Definition getStream (h : heap) (this : BatchDataset)
    : DataStream (M DatasetBatch) :=
  let batchesAsArrays :=
    DataStream_batch (batchSize this) (smallLastBatch this)
      (Dataset_getStream (base this)) in
  DataStream_map (makeDatasetBatch h) batchesAsArrays.

(** ** Keys that the prototype chain treats specially *)

(** The names of the members of [Object.prototype], which every record
    inherits: a read [e[key]] of such a key yields the inherited member
    when [e] does not own the key. *)
Definition Object_prototype : list string :=
  [ "constructor"; "hasOwnProperty"; "isPrototypeOf";
    "propertyIsEnumerable"; "toLocaleString"; "toString"; "valueOf";
    "__proto__"; "__defineGetter__"; "__defineSetter__";
    "__lookupGetter__"; "__lookupSetter__" ].

Definition inherits (key : string) : bool :=
  bool_decide (key ∈ Object_prototype).

(** The read [e[key]] of a record in full: the value the record owns
    under the key, else the member of [Object.prototype] of that name,
    else [undefined]. *)
Inductive property : Type :=
  | Own (v : ElementArray)
  | Inherited (member : string)
  | Undefined.

Definition get (e : DatasetElement) (key : string) : property :=
  match e !! key with
  | Some v => Own v
  | None => if inherits key then Inherited key else Undefined
  end.


(** ** Windows and columns the further properties speak about *)

(** A window all of whose tensors satisfy the class invariant. *)
Definition window_wf (elements : list DatasetElement) : Prop :=
  ∀ e k v, e ∈ elements → e !! k = Some v → value_wf (Some v).

(** The values that reach the last branch of [shapeAndValues]: a number, a
    string, or [undefined]. *)
Definition scalar_like (a : jsval) : Prop :=
  match a with
  | Some (ENumber _) | Some (EString _) | None => True
  | Some (EArray _) | Some (ETensor _) => False
  end.

(** The cell a [Float32Array] holds after such a value is stored in it. *)
Definition scalar_cell (a : jsval) : number :=
  match a with
  | Some (ENumber x) => fround x
  | Some (EString s) => fround (StringToNumber s)
  | _ => fround NaN
  end.

(** ** Requirements of the specification that the code is compared with *)

(** Release on every path: whether the window is assembled or fails, each
    of its records is released exactly once. *)
Definition releases_on_every_path (h : heap) (elements : list DatasetElement)
    : Prop :=
  ∀ σ, (makeDatasetBatch h elements σ).2 = σ ++ elements.

(** Schema check: a record after the first that lacks a key of the first
    makes the window fail with [SchemaMismatch]. *)
Definition fails_on_missing_key (h : heap) (elements : list DatasetElement)
    : Prop :=
  (∃ e0 i e key, elements !! 0 = Some e0 ∧ elements !! i = Some e
      ∧ is_Some (e0 !! key) ∧ e !! key = None) →
  ∀ σ, (makeDatasetBatch h elements σ).1 = Throw SchemaMismatch.

(** Kind check: a numeric value in a field whose first value is text makes
    the window fail with [TypeMismatch]. *)
Definition fails_on_mixed_text_field (h : heap)
    (elements : list DatasetElement) : Prop :=
  (∃ e0 key s i e x, elements !! 0 = Some e0 ∧ e0 !! key = Some (EString s)
      ∧ elements !! i = Some e ∧ e !! key = Some (ENumber x)) →
  ∀ σ, (makeDatasetBatch h elements σ).1 = Throw TypeMismatch.

(** Copy, not alias: what is read through the buffer returned for the
    array at [a] does not change when the array is written afterwards. *)
Definition returns_copy (h : heap) (a : loc) : Prop :=
  ∀ xs', entries (<[a := xs']> h) (shapeAndValues h (Some (EArray a))).2
         = entries h (shapeAndValues h (Some (EArray a))).2.


(** Validation at construction: a non-positive [batchSize] is refused with
    [InvalidConfiguration]. *)
Definition validates_batchSize : Prop :=
  ∀ (base : Dataset) (batchSize : Z) (smallLastBatch : option bool),
    (batchSize ≤ 0)%Z →
    constructor base batchSize smallLastBatch = Throw InvalidConfiguration.

End Batching.

(** ** A numeric environment for worked examples

    Numbers are kept as terms: an integer literal, [NaN], the float32
    rounding of a number and the conversion of a string, so that evaluating
    the code on sample records does not depend on IEEE arithmetic. *)
Module Sample.

Inductive num : Type :=
  | Lit (z : Z)
  | NotANumber
  | Fround (x : num)
  | OfString (s : string).

Global Instance env : NumericEnv := {|
  number := num;
  zero := Lit 0;
  NaN := NotANumber;
  fround := Fround;
  StringToNumber := OfString
|}.

(** The store of the examples: [[1, 2]] at address 1 and [[1, 2, 3]] at
    address 2. *)
Definition h0 : heap :=
  {[ 1%positive := [Lit 1; Lit 2]; 2%positive := [Lit 1; Lit 2; Lit 3] ]}.

(** The three records of the worked example of the specification. *)
Definition abc : list DatasetElement :=
  [ {[ "a" := ENumber (Lit 1); "b" := EString "x" ]};
    {[ "a" := ENumber (Lit 2); "b" := EString "y" ]};
    {[ "a" := ENumber (Lit 3); "b" := EString "z" ]} ].

Definition abc_dataset : BatchDataset := mkBatchDataset abc 2 true.

(** [[{a: [1, 2]}, {a: [1, 2, 3]}]]: element shapes [[2]] and [[3]]. *)
Definition ragged : list DatasetElement :=
  [ {[ "a" := EArray 1%positive ]}; {[ "a" := EArray 2%positive ]} ].

(** [[{b: "x"}, {}]]: the second record lacks the key of the first. *)
Definition missing : list DatasetElement := [ {[ "b" := EString "x" ]}; ∅ ].

(** [[{b: "x"}, {b: 1}]]: a text field with a later numeric value. *)
Definition mixed : list DatasetElement :=
  [ {[ "b" := EString "x" ]}; {[ "b" := ENumber (Lit 1) ]} ].


(** A column of two values of shape [[2]]: a tensor and the array at 1. *)
Definition pairs : list jsval :=
  [ Some (ETensor (mkTensor [2] [Lit 5; Lit 6])); Some (EArray 1%positive) ].

(** The column of the key [a] of [ragged]. *)
Definition ragged_column : list jsval :=
  [ Some (EArray 1%positive); Some (EArray 2%positive) ].

(** A column that starts with a number and goes on with the string ["2"]
    and a missing value. *)
Definition scalars : list jsval :=
  [ Some (ENumber (Lit 1)); Some (EString "2"); None ].

(** [[{}, {a: 1}]]: the first record has no key. *)
Definition empty_first : list DatasetElement :=
  [ ∅; {[ "a" := ENumber (Lit 1) ]} ].

(** [[{a: [1, 2], b: "x"}, {a: [1, 2], b: "y"}]]. *)
Definition rows : list DatasetElement :=
  [ {[ "a" := EArray 1%positive; "b" := EString "x" ]};
    {[ "a" := EArray 1%positive; "b" := EString "y" ]} ].

(** [[{a: [1, 2]}, {a: [1, 2], c: 7}]]: the column of [a] is the one of
    [rows]. *)
Definition rows' : list DatasetElement :=
  [ {[ "a" := EArray 1%positive ]};
    {[ "a" := EArray 1%positive; "c" := ENumber (Lit 7) ]} ].

(** The batches of [rows] and [rows']. *)
Definition rows_tensor : Tensor :=
  mkTensor [2; 2] [Fround (Lit 1); Fround (Lit 2); Fround (Lit 1); Fround (Lit 2)].

Definition rows_batch : DatasetBatch :=
  {[ "a" := BTensor rows_tensor;
     "b" := BStrings [Some (EString "x"); Some (EString "y")] ]}.

Definition rows'_batch : DatasetBatch := {[ "a" := BTensor rows_tensor ]}.

(** [[{a: 1}, {}]]: the second record lacks the numeric key of the
    first. *)
Definition missing_number : list DatasetElement :=
  [ {[ "a" := ENumber (Lit 1) ]}; ∅ ].

Definition missing_number_batch : DatasetBatch :=
  {[ "a" := BTensor (mkTensor [2] [Fround (Lit 1); Fround NotANumber]) ]}.


End Sample.

(** * Properties *)

Section Properties.

Context `{NumericEnv}.

(** ** The batching stream stage *)

Lemma div_full (n m : nat) : 0 < n → (n + m) / n = S (m / n).
Proof.
  intros Hn. replace (n + m) with (1 * n + m) by lia.
  rewrite Nat.div_add_l by lia. lia.
Qed.
Lemma mod_full (n m : nat) : 0 < n → (n + m) mod n = m mod n.
Proof.
  intros Hn. replace (n + m) with (m + 1 * n) by lia.
  apply Nat.Div0.mod_add.
Qed.

Lemma batch_from_nil {A} (B : Z) (slb : bool) (buffer : list A) :
  batch_from B slb buffer []
  = if slb && bool_decide (0 < length buffer) then [buffer] else [].
Proof. reflexivity. Qed.

Lemma batch_from_full {A} (n : nat) (slb : bool) (buffer ups : list A) (x : A) :
  S (length buffer) = n →
  batch_from (Z.of_nat n) slb buffer (x :: ups)
  = (buffer ++ [x]) :: batch_from (Z.of_nat n) slb [] ups.
Proof.
  intros Hn. simpl. rewrite bool_decide_eq_true_2; [done|].
  rewrite length_app. simpl. lia.
Qed.

Lemma batch_from_short {A} (n : nat) (slb : bool) (buffer ups : list A) (x : A) :
  S (length buffer) ≠ n →
  batch_from (Z.of_nat n) slb buffer (x :: ups)
  = batch_from (Z.of_nat n) slb (buffer ++ [x]) ups.
Proof.
  intros Hn. simpl. rewrite bool_decide_eq_false_2; [done|].
  rewrite length_app. simpl. lia.
Qed.

Lemma batch_from_length {A} (n : nat) (slb : bool) (ups buffer : list A) :
  0 < n → length buffer < n →
  length (batch_from (Z.of_nat n) slb buffer ups)
  = (length buffer + length ups) / n
    + partial slb ((length buffer + length ups) mod n).
Proof.
  intros Hn. revert buffer. induction ups as [|x ups IH]; intros buffer Hb.
  - rewrite batch_from_nil. simpl length. rewrite Nat.add_0_r.
    rewrite Nat.div_small, Nat.mod_small by done. unfold partial.
    destruct slb; simpl; [|done].
    case_bool_decide as Hpos.
    + destruct (length buffer =? 0) eqn:E; [apply Nat.eqb_eq in E; lia|done].
    + by replace (length buffer) with 0 by lia.
  - destruct (decide (S (length buffer) = n)) as [Hfull|Hshort].
    + rewrite batch_from_full by done. simpl length. rewrite IH by (simpl; lia).
      simpl length. replace (length buffer + S (length ups)) with (n + length ups) by lia.
      rewrite div_full, mod_full by done. simpl. lia.
    + rewrite batch_from_short by done. rewrite IH by (rewrite length_app; simpl; lia).
      rewrite length_app. simpl length.
      by replace (length buffer + 1 + length ups) with (length buffer + S (length ups)) by lia.
Qed.

Lemma batch_from_concat_true {A} (n : nat) (ups buffer : list A) :
  concat (batch_from (Z.of_nat n) true buffer ups) = buffer ++ ups.
Proof.
  revert buffer. induction ups as [|x ups IH]; intros buffer.
  - rewrite batch_from_nil. simpl. case_bool_decide; simpl.
    + done.
    + destruct buffer; [done|simpl in *; lia].
  - destruct (decide (S (length buffer) = n)) as [Hfull|Hshort].
    + rewrite batch_from_full by done. simpl. rewrite IH. by rewrite <- app_assoc.
    + rewrite batch_from_short by done. rewrite IH. by rewrite <- app_assoc.
Qed.

Lemma batch_from_sizes_false {A} (n : nat) (ups buffer : list A) :
  Forall (λ w, length w = n) (batch_from (Z.of_nat n) false buffer ups).
Proof.
  revert buffer. induction ups as [|x ups IH]; intros buffer.
  - by rewrite batch_from_nil.
  - destruct (decide (S (length buffer) = n)) as [Hfull|Hshort].
    + rewrite batch_from_full by done. constructor; [|done].
      rewrite length_app. simpl. lia.
    + rewrite batch_from_short by done. apply IH.
Qed.

Lemma batch_from_concat_false {A} (n : nat) (ups buffer : list A) :
  0 < n → length buffer < n →
  concat (batch_from (Z.of_nat n) false buffer ups)
  = take (n * ((length buffer + length ups) / n)) (buffer ++ ups).
Proof.
  intros Hn. revert buffer. induction ups as [|x ups IH]; intros buffer Hb.
  - rewrite batch_from_nil. simpl. rewrite Nat.add_0_r, Nat.div_small by done.
    by rewrite Nat.mul_0_r.
  - destruct (decide (S (length buffer) = n)) as [Hfull|Hshort].
    + rewrite batch_from_full by done. simpl concat. rewrite IH by (simpl; lia).
      simpl length. replace (length buffer + S (length ups)) with (n + length ups) by lia.
      rewrite div_full by done. simpl app.
      replace (n * S (length ups / n)) with (length (buffer ++ [x]) + n * (length ups / n))
        by (rewrite length_app; simpl; lia).
      rewrite (cons_middle x buffer ups), app_assoc.
      by rewrite take_app_add.
    + rewrite batch_from_short by done. rewrite IH by (rewrite length_app; simpl; lia).
      rewrite length_app. simpl length. rewrite <- app_assoc. simpl.
      by replace (length buffer + 1 + length ups) with (length buffer + S (length ups)) by lia.
Qed.

Lemma batch_from_last_true {A} (n : nat) (ups buffer w : list A) :
  0 < n → length buffer < n →
  last (batch_from (Z.of_nat n) true buffer ups) = Some w →
  length w = if (length buffer + length ups) mod n =? 0 then n
             else (length buffer + length ups) mod n.
Proof.
  intros Hn. revert buffer. induction ups as [|x ups IH]; intros buffer Hb.
  - rewrite batch_from_nil. simpl. rewrite Nat.add_0_r, Nat.mod_small by done.
    case_bool_decide as Hpos; simpl; [|done]. intros [= <-].
    destruct (length buffer =? 0) eqn:E; [|done]. apply Nat.eqb_eq in E. lia.
  - destruct (decide (S (length buffer) = n)) as [Hfull|Hshort].
    + rewrite batch_from_full by done.
      simpl length. replace (length buffer + S (length ups)) with (n + length ups) by lia.
      rewrite mod_full by done.
      pose proof (batch_from_length n true ups [] Hn ltac:(simpl; lia)) as Hlen.
      specialize (IH [] ltac:(simpl; lia)). simpl in IH, Hlen.
      destruct (batch_from (Z.of_nat n) true [] ups) as [|w' ws] eqn:E.
      * simpl. intros [= <-]. simpl in Hlen.
        assert (length ups mod n = 0) as ->.
        { unfold partial in Hlen. simpl in Hlen.
          destruct (length ups mod n); [done|simpl in Hlen; lia]. }
        simpl. rewrite length_app. simpl. lia.
      * rewrite last_cons_cons. apply IH.
    + rewrite batch_from_short by done. intros Hl.
      rewrite (IH (buffer ++ [x]) ltac:(rewrite length_app; simpl; lia) Hl).
      rewrite length_app. simpl length.
      by replace (length buffer + 1 + length ups) with (length buffer + S (length ups)) by lia.
Qed.

Lemma ceil_div_Z (L n : nat) :
  0 < n →
  ((Z.of_nat L + Z.of_nat n - 1) / Z.of_nat n)%Z
    = Z.of_nat (L / n + partial true (L mod n)).
Proof.
  intros Hn. unfold partial. simpl.
  pose proof (Nat.div_mod_eq L n) as Hdm.
  pose proof (Nat.mod_upper_bound L n ltac:(lia)) as Hub.
  symmetry. destruct (L mod n =? 0) eqn:E; simpl.
  - apply Nat.eqb_eq in E.
    apply Z.div_unique with (Z.of_nat n - 1)%Z; [lia|nia].
  - apply Nat.eqb_neq in E.
    apply Z.div_unique with (Z.of_nat (L mod n) - 1)%Z; [lia|nia].
Qed.

(** C1: over a finite upstream of [L] records and a configured
    [batchSize] [B], the stage emits [ceil(L/B)] batches when
    [smallLastBatch] holds, the last one with [L mod B] records (with [B]
    when [L mod B = 0]); it emits [floor(L/B)] batches of [B] records
    otherwise, the remainder being dropped.  [getStream] maps every
    emitted window, in order, to its batch assembly. *)
Theorem batches_emitted (h : heap) (this : BatchDataset) :
  (0 < batchSize this)%Z →
  let B := batchSize this in
  let L := Z.of_nat (length (base this)) in
  let batchesAsArrays :=
    DataStream_batch B (smallLastBatch this) (Dataset_getStream (base this)) in
  getStream h this = makeDatasetBatch h <$> batchesAsArrays
  ∧ length (getStream h this) = length batchesAsArrays
  ∧ (smallLastBatch this = true →
       Z.of_nat (length batchesAsArrays) = ((L + B - 1) / B)%Z
       ∧ concat batchesAsArrays = base this
       ∧ ((0 < L)%Z → is_Some (last batchesAsArrays))
       ∧ ∀ w, last batchesAsArrays = Some w →
           Z.of_nat (length w)
             = if decide ((L mod B)%Z = 0%Z) then B else (L mod B)%Z)
  ∧ (smallLastBatch this = false →
       Z.of_nat (length batchesAsArrays) = (L / B)%Z
       ∧ Forall (λ w, Z.of_nat (length w) = B) batchesAsArrays
       ∧ concat batchesAsArrays
           = take (Z.to_nat (B * (L / B))) (base this)).
Proof.
  destruct this as [records B slb]. simpl. intros HB.
  unfold getStream, DataStream_map, DataStream_batch, Dataset_getStream. simpl.
  assert (∃ n, B = Z.of_nat n ∧ 0 < n) as (n & -> & Hn).
  { exists (Z.to_nat B). lia. }
  split_and!; [done|by rewrite length_fmap| |].
  - intros ->.
    pose proof (batch_from_length n true records [] Hn ltac:(simpl; lia)) as Hlen.
    simpl in Hlen. split_and!.
    + by rewrite ceil_div_Z, Hlen.
    + by rewrite batch_from_concat_true.
    + intros HL. destruct (last _) eqn:E; [by eexists|].
      apply last_None in E. rewrite E in Hlen. simpl in Hlen.
      assert (length records / n = 0) as Hq by lia.
      apply Nat.div_small_iff in Hq; [|lia].
      rewrite Nat.mod_small in Hlen by done. unfold partial in Hlen.
      destruct (length records); [lia|simpl in Hlen; lia].
    + intros w Hw.
      apply (batch_from_last_true n records [] w Hn ltac:(simpl; lia)) in Hw.
      simpl in Hw. rewrite <- Nat2Z.inj_mod, Hw.
      destruct (length records mod n =? 0) eqn:E.
      * apply Nat.eqb_eq in E. rewrite E. by rewrite decide_True.
      * apply Nat.eqb_neq in E. rewrite decide_False; [done|lia].
  - intros ->.
    pose proof (batch_from_length n false records [] Hn ltac:(simpl; lia)) as Hlen.
    simpl in Hlen. unfold partial in Hlen. simpl in Hlen. split_and!.
    + rewrite Hlen, Nat.add_0_r. by rewrite Nat2Z.inj_div.
    + eapply Forall_impl; [apply batch_from_sizes_false|].
      intros w Hw. simpl in Hw. by rewrite Hw.
    + rewrite batch_from_concat_false by (simpl; lia). simpl.
      f_equal. rewrite <- Nat2Z.inj_div, <- Nat2Z.inj_mul. by rewrite Nat2Z.id.
Qed.

(** ** The constructor *)

(** C8 (as amended): the constructor validates nothing.  For every
    [batchSize], positive or not, construction succeeds and stores the
    arguments as given, [smallLastBatch] being [true] when omitted. *)
Theorem constructor_never_fails (base : Dataset) (batchSize : Z)
    (smallLastBatch : option bool) :
  constructor base batchSize smallLastBatch
    = Ok (mkBatchDataset base batchSize (default true smallLastBatch))
  ∧ constructor base batchSize None = Ok (mkBatchDataset base batchSize true).
Proof. split; reflexivity. Qed.

(** ** Loops *)

Lemma forEach_cons {A S} (body : S → A → outcome S) (x : A) (xs : list A)
    (s : S) :
  forEach body (x :: xs) s = (s' ← body s x; forEach body xs s').
Proof. reflexivity. Qed.

Lemma forEach_app {A S} (body : S → A → outcome S) (xs ys : list A) (s : S) :
  forEach body (xs ++ ys) s = (s' ← forEach body xs s; forEach body ys s').
Proof.
  revert s. induction xs as [|x xs IH]; intros s; simpl; [done|].
  destruct (body s x) as [s'|e]; simpl; [apply IH|done].
Qed.

(** ** Shapes *)

Lemma arraysEqual_spec (n1 n2 : list nat) : arraysEqual n1 n2 = true ↔ n1 = n2.
Proof.
  revert n2. induction n1 as [|x n1 IH]; intros [|y n2]; simpl; try done.
  rewrite andb_true_iff, Nat.eqb_eq, IH. split.
  - by intros [-> ->].
  - by intros [= -> ->].
Qed.

Lemma arraysEqual_refl (n : list nat) : arraysEqual n n = true.
Proof. by apply arraysEqual_spec. Qed.

Lemma arraysEqual_neq (n1 n2 : list nat) : n1 ≠ n2 → arraysEqual n1 n2 = false.
Proof.
  intros Hne. destruct (arraysEqual n1 n2) eqn:E; [|done].
  by apply arraysEqual_spec in E.
Qed.

Lemma foldl_mul_scale (n m : nat) (s : list nat) :
  foldl Nat.mul (n * m) s = n * foldl Nat.mul m s.
Proof.
  revert m. induction s as [|d s IH]; intros m; simpl; [done|].
  by rewrite <- Nat.mul_assoc, IH.
Qed.

Lemma reduce_mul_sizeFromShape (n : nat) (s : list nat) :
  reduce_mul n s = n * sizeFromShape s.
Proof.
  unfold reduce_mul, sizeFromShape.
  rewrite <- foldl_mul_scale. by rewrite Nat.mul_1_r.
Qed.

(** The flat values of a well-formed value fill its shape exactly. *)
Lemma flatValues_length (h : heap) (a : jsval) :
  value_wf a → length (flatValues h a) = sizeFromShape (shapeOf h a).
Proof.
  unfold flatValues, shapeOf.
  destruct a as [[x|l|t|s]|]; simpl; intros Hwf; try done.
  - rewrite length_fmap. unfold sizeFromShape. simpl. lia.
  - by rewrite length_fmap.
Qed.

(** ** [batchConcat] *)

Lemma Float32Array_set_fits (target : list number) (source : list prim)
    (offset : nat) :
  offset + length source ≤ length target →
  Float32Array_set target source offset
    = Ok (take offset target ++ (toFloat32 <$> source)
            ++ drop (offset + length source) target).
Proof. intros Hfit. unfold Float32Array_set. by rewrite decide_True. Qed.

Lemma batchConcat_body_same (h : heap) (es : list nat) (rv : list number)
    (off : nat) (a : jsval) :
  value_wf a → shapeOf h a = es →
  off + sizeFromShape es ≤ length rv →
  batchConcat_body h es (rv, off) a
    = Ok (take off rv ++ (toFloat32 <$> flatValues h a)
            ++ drop (off + sizeFromShape es) rv, off + sizeFromShape es).
Proof.
  intros Hwf Hshape Hfit.
  pose proof (flatValues_length h a Hwf) as Hlen. rewrite Hshape in Hlen.
  unfold batchConcat_body, shapeOf, flatValues in *.
  destruct (shapeAndValues h a) as [aShape aVals]; simpl in *. subst aShape.
  rewrite arraysEqual_refl, Float32Array_set_fits by lia.
  simpl. by rewrite Hlen.
Qed.

Lemma batchConcat_body_differs (h : heap) (es : list nat)
    (st : list number * nat) (a : jsval) :
  shapeOf h a ≠ es → batchConcat_body h es st a = Throw ShapeMismatch.
Proof.
  intros Hne. destruct st as [rv off].
  unfold batchConcat_body, shapeOf in *.
  destruct (shapeAndValues h a) as [aShape aVals]; simpl in *.
  by rewrite arraysEqual_neq.
Qed.

(** The loop over same-shaped values writes their converted flat values one
    after the other, from [off] on. *)
Lemma batchConcat_loop_same (h : heap) (es : list nat) (arrays : list jsval)
    (rv : list number) (off : nat) :
  Forall value_wf arrays →
  Forall (λ a, shapeOf h a = es) arrays →
  off + length arrays * sizeFromShape es ≤ length rv →
  forEach (batchConcat_body h es) arrays (rv, off)
    = Ok (take off rv
            ++ (toFloat32 <$> concat (flatValues h <$> arrays))
            ++ drop (off + length arrays * sizeFromShape es) rv,
          off + length arrays * sizeFromShape es).
Proof.
  revert rv off. induction arrays as [|a arrays IH]; intros rv off Hwf Hsh Hfit.
  - simpl. rewrite Nat.add_0_r. by rewrite take_drop.
  - apply Forall_cons in Hwf as [Hwa Hwf]. apply Forall_cons in Hsh as [Hsa Hsh].
    simpl in Hfit. rewrite forEach_cons.
    pose proof (flatValues_length h a Hwa) as Hlen. rewrite Hsa in Hlen.
    rewrite batchConcat_body_same by (done || lia). simpl.
    set (P := sizeFromShape es) in *.
    set (rv1 := take off rv ++ (toFloat32 <$> flatValues h a) ++ drop (off + P) rv).
    assert (length rv1 = length rv) as Hl1.
    { unfold rv1. rewrite !length_app, length_take, length_fmap, length_drop. lia. }
    rewrite IH by (done || lia).
    assert (take (off + P) rv1 = take off rv ++ (toFloat32 <$> flatValues h a)) as ->.
    { unfold rv1. rewrite app_assoc. apply take_app_length'.
      rewrite length_app, length_take, length_fmap. lia. }
    assert (drop (off + P + length arrays * P) rv1
            = drop (off + (P + length arrays * P)) rv) as ->.
    { unfold rv1. rewrite app_assoc.
      rewrite drop_app_add' by (rewrite length_app, length_take, length_fmap; lia).
      rewrite drop_drop. f_equal. lia. }
    simpl. rewrite fmap_app, <- !app_assoc. do 2 f_equal. lia.
Qed.

(** The loop stops with the shape error at the first value whose shape
    differs. *)
Lemma batchConcat_loop_differs (h : heap) (es : list nat)
    (arrays : list jsval) (rv : list number) (off : nat) :
  Forall value_wf arrays →
  Exists (λ a, shapeOf h a ≠ es) arrays →
  off + length arrays * sizeFromShape es ≤ length rv →
  forEach (batchConcat_body h es) arrays (rv, off) = Throw ShapeMismatch.
Proof.
  revert rv off. induction arrays as [|a arrays IH]; intros rv off Hwf Hex Hfit.
  - by apply Exists_nil in Hex.
  - apply Forall_cons in Hwf as [Hwa Hwf]. simpl in Hfit. rewrite forEach_cons.
    destruct (decide (shapeOf h a = es)) as [Hsa|Hsa].
    + rewrite batchConcat_body_same by (done || lia). simpl.
      apply IH; [done| |].
      * apply Exists_cons in Hex as [Hex|Hex]; done.
      * rewrite !length_app, length_take, length_fmap, length_drop.
        rewrite (flatValues_length h a Hwa), Hsa. lia.
    + by rewrite batchConcat_body_differs.
Qed.

Lemma batchConcat_same (h : heap) (arrays : list jsval) :
  Forall value_wf arrays →
  Forall (λ a, shapeOf h a = shapeOf h (first arrays)) arrays →
  batchConcat h arrays
    = Ok (Tensor_make (length arrays :: shapeOf h (first arrays))
            (toFloat32 <$> concat (flatValues h <$> arrays))).
Proof.
  intros Hwf Hsh. unfold batchConcat, shapeOf in *.
  destruct (shapeAndValues h (first arrays)) as [es ?] eqn:E; simpl in *.
  rewrite batchConcat_loop_same; try done.
  - simpl. rewrite drop_ge, app_nil_r; [done|].
    unfold Float32Array. rewrite length_replicate, reduce_mul_sizeFromShape. lia.
  - unfold Float32Array. rewrite length_replicate, reduce_mul_sizeFromShape. lia.
Qed.

Lemma batchConcat_differs (h : heap) (arrays : list jsval) :
  Forall value_wf arrays →
  Exists (λ a, shapeOf h a ≠ shapeOf h (first arrays)) arrays →
  batchConcat h arrays = Throw ShapeMismatch.
Proof.
  intros Hwf Hex. unfold batchConcat, shapeOf in *.
  destruct (shapeAndValues h (first arrays)) as [es ?] eqn:E; simpl in *.
  rewrite batchConcat_loop_differs; try done.
  unfold Float32Array. rewrite length_replicate, reduce_mul_sizeFromShape. lia.
Qed.

(** Cutting a concatenation of equally long pieces gives the pieces back. *)
Lemma slice_concat {A} (n i : nat) (ls : list (list A)) (l : list A) :
  Forall (λ l, length l = n) ls → ls !! i = Some l →
  slice n i (concat ls) = l.
Proof.
  unfold slice. revert i.
  induction ls as [|l0 ls IH]; intros i Hall Hi; [done|].
  apply Forall_cons in Hall as [Hl0 Hall]. destruct i as [|i]; simpl in *.
  - injection Hi as ->. by apply take_app_length'.
  - rewrite drop_app_add' by done. by apply IH.
Qed.

Lemma lookup_concat_uniform {A} (n i j : nat) (ls : list (list A))
    (l : list A) (x : A) :
  Forall (λ l, length l = n) ls → ls !! i = Some l → l !! j = Some x →
  concat ls !! (i * n + j) = Some x.
Proof.
  revert i. induction ls as [|l0 ls IH]; intros i Hall Hi Hj; [done|].
  apply Forall_cons in Hall as [Hl0 Hall]. destruct i as [|i]; simpl in *.
  - injection Hi as ->. by apply lookup_app_l_Some.
  - rewrite lookup_app_r by lia.
    replace (n + i * n + j - length l0) with (i * n + j) by lia. by apply IH.
Qed.

Lemma flatValues_uniform (h : heap) (es : list nat) (arrays : list jsval) :
  Forall value_wf arrays →
  Forall (λ a, shapeOf h a = es) arrays →
  Forall (λ l, length l = sizeFromShape es)
    ((fmap toFloat32 ∘ flatValues h) <$> arrays).
Proof.
  intros Hwf Hsh. apply Forall_fmap, Forall_forall. intros a Ha. simpl.
  rewrite Forall_forall in Hwf, Hsh.
  rewrite length_fmap, flatValues_length by auto. f_equal. auto.
Qed.

Lemma fmap_concat_flat (h : heap) (arrays : list jsval) :
  toFloat32 <$> concat (flatValues h <$> arrays)
    = concat ((fmap toFloat32 ∘ flatValues h) <$> arrays).
Proof.
  induction arrays as [|a arrays IH]; csimpl; [done|].
  by rewrite fmap_app, IH.
Qed.

(** C6: a window of same-shaped values is concatenated into a tensor of
    shape [[B, ...elementShape]] whose flat buffer, cut back into [B]
    consecutive slices of [product(elementShape)] cells, gives in slice [i]
    the flat values of record [i], each converted to float32. *)
Theorem batchConcat_roundtrip (h : heap) (arrays : list jsval) :
  Forall value_wf arrays →
  Forall (λ a, shapeOf h a = shapeOf h (first arrays)) arrays →
  ∃ t, batchConcat h arrays = Ok t
    ∧ shape t = length arrays :: shapeOf h (first arrays)
    ∧ length (dataSync t)
        = length arrays * sizeFromShape (shapeOf h (first arrays))
    ∧ ∀ i a, arrays !! i = Some a →
        slice (sizeFromShape (shapeOf h (first arrays))) i (dataSync t)
          = toFloat32 <$> flatValues h a.
Proof.
  intros Hwf Hsh. eexists. split; [by apply batchConcat_same|].
  pose proof (flatValues_uniform h _ arrays Hwf Hsh) as Huni.
  simpl. rewrite fmap_concat_flat. split_and!; [done| |].
  - clear Hsh Hwf. revert Huni.
    generalize (sizeFromShape (shapeOf h (first arrays))) as P.
    induction arrays as [|a arrays IH]; intros P Huni; csimpl; [done|].
    apply Forall_cons in Huni as [Ha Huni]. simpl in Ha.
    rewrite length_app, (IH P) by done. lia.
  - intros i a Hi. apply slice_concat; [done|].
    by rewrite list_lookup_fmap, Hi.
Qed.

(** C4: in a numeric field, a value whose shape differs from the element
    shape of the first value makes the concatenation fail with the shape
    error; otherwise the flat values of the record at position [i] are
    copied to the output buffer from offset [i × product(elementShape)]
    on. *)
Theorem batchConcat_shape_check (h : heap) (arrays : list jsval) :
  Forall value_wf arrays →
  (Exists (λ a, shapeOf h a ≠ shapeOf h (first arrays)) arrays →
     batchConcat h arrays = Throw ShapeMismatch)
  ∧ (Forall (λ a, shapeOf h a = shapeOf h (first arrays)) arrays →
     ∃ t, batchConcat h arrays = Ok t
       ∧ ∀ i a j p, arrays !! i = Some a → flatValues h a !! j = Some p →
           dataSync t
             !! (i * sizeFromShape (shapeOf h (first arrays)) + j)
             = Some (toFloat32 p)).
Proof.
  intros Hwf. split.
  - by apply batchConcat_differs.
  - intros Hsh. eexists. split; [by apply batchConcat_same|].
    intros i a j p Hi Hj. simpl. rewrite fmap_concat_flat.
    eapply lookup_concat_uniform.
    + by apply flatValues_uniform.
    + by rewrite list_lookup_fmap, Hi.
    + simpl. by rewrite list_lookup_fmap, Hj.
Qed.

(** ** [makeDatasetBatch] *)

Lemma forEach_Throw {A S} (body : S → A → outcome S) (xs : list A) (s : S)
    (e : error) :
  forEach body xs s = Throw e → ∃ s' x, x ∈ xs ∧ body s' x = Throw e.
Proof.
  revert s. induction xs as [|x xs IH]; intros s; [done|].
  rewrite forEach_cons. destruct (body s x) as [s1|e1] eqn:E; simpl.
  - intros Hxs. destruct (IH _ Hxs) as (s' & y & Hy & Hb).
    exists s', y. split; [by right|done].
  - intros [= ->]. exists s, x. split; [by left|done].
Qed.

Lemma elem_of_keys (e : DatasetElement) (k : string) :
  k ∈ (map_to_list e).*1 ↔ is_Some (e !! k).
Proof.
  rewrite list_elem_of_fmap. split.
  - intros ([k' v] & -> & Hin). apply elem_of_map_to_list in Hin. by exists v.
  - intros [v Hv]. exists (k, v). split; [done|]. by apply elem_of_map_to_list.
Qed.

Lemma rotated_init (keys : list string) (m : gmap string (list jsval))
    (k : string) :
  foldl (λ rotated key, <[key := []]> rotated) m keys !! k
    = if decide (k ∈ keys) then Some [] else m !! k.
Proof.
  revert m. induction keys as [|key keys IH]; intros m; cbn [foldl].
  - by rewrite decide_False by apply not_elem_of_nil.
  - rewrite IH. destruct (decide (k ∈ keys)) as [Hin|Hnin].
    + by rewrite decide_True by (by right).
    + destruct (decide (k = key)) as [->|Hne].
      * rewrite lookup_insert_eq. by rewrite decide_True by (by left).
      * rewrite lookup_insert_ne by done.
        rewrite decide_False; [done|]. by intros [?|?]%elem_of_cons.
Qed.

(** One element pushes its value for every key, once per key. *)
Lemma push_loop (e : DatasetElement) (ks : list string)
    (rot : gmap string (list jsval)) :
  NoDup ks → (∀ k, k ∈ ks → is_Some (rot !! k)) →
  ∃ rot', forEach (λ rotated key, push rotated key (e !! key)) ks rot = Ok rot'
    ∧ ∀ k, rot' !! k
        = if decide (k ∈ ks) then (λ c, c ++ [e !! k]) <$> rot !! k
          else rot !! k.
Proof.
  revert rot. induction ks as [|key ks IH]; intros rot Hnd Hin.
  - exists rot. split; [done|]. intros k.
    by rewrite decide_False by apply not_elem_of_nil.
  - apply NoDup_cons in Hnd as [Hkey Hnd].
    destruct (Hin key) as [c Hc]; [by left|].
    rewrite forEach_cons. unfold push at 2. rewrite Hc. simpl.
    destruct (IH (<[key := c ++ [e !! key]]> rot) Hnd) as (rot' & Hrun & Hrot').
    { intros k Hk. destruct (decide (k = key)) as [->|Hne].
      - rewrite lookup_insert_eq. by eexists.
      - rewrite lookup_insert_ne by done. apply Hin. by right. }
    exists rot'. split; [done|]. intros k. rewrite Hrot'.
    destruct (decide (k = key)) as [->|Hne].
    + rewrite decide_False by done. rewrite decide_True by (by left).
      by rewrite lookup_insert_eq, Hc.
    + rewrite lookup_insert_ne by done.
      destruct (decide (k ∈ ks)) as [Hk|Hk].
      * by rewrite decide_True by (by right).
      * rewrite decide_False; [done|]. by intros [?|?]%elem_of_cons.
Qed.

Lemma column_snoc (k : string) (es : list DatasetElement) (e : DatasetElement) :
  column k (es ++ [e]) = column k es ++ [e !! k].
Proof. unfold column. by rewrite fmap_app. Qed.

Lemma rotate_loop (keys : list string) (done todo : list DatasetElement)
    (rot : gmap string (list jsval)) :
  NoDup keys → columns_of keys done rot →
  ∃ rot', forEach (λ rotated e,
            forEach (λ rotated key, push rotated key (e !! key)) keys rotated)
            todo rot = Ok rot'
    ∧ columns_of keys (done ++ todo) rot'.
Proof.
  intros Hnd. revert done rot.
  induction todo as [|e todo IH]; intros done rot Hinv.
  - exists rot. by rewrite app_nil_r.
  - destruct (push_loop e keys rot Hnd) as (rot1 & Hrun1 & Hrot1).
    { intros k Hk. rewrite (Hinv k), decide_True by done. by eexists. }
    destruct (IH (done ++ [e]) rot1) as (rot' & Hrun & Hrot').
    { intros k. rewrite Hrot1, (Hinv k).
      destruct (decide (k ∈ keys)); [|done]. simpl. by rewrite column_snoc. }
    exists rot'. rewrite forEach_cons, Hrun1. simpl.
    split; [done|]. by rewrite <- app_assoc in Hrot'.
Qed.

(** The transposition never throws, and leaves for every key of the
    template the column of the elements. *)
Lemma rotate_Ok (keys : list string) (elements : list DatasetElement) :
  NoDup keys →
  ∃ rotated, rotate keys elements = Ok rotated
    ∧ columns_of keys elements rotated.
Proof.
  intros Hnd. unfold rotate.
  destruct (rotate_loop keys [] elements
    (foldl (λ rotated key, <[key := []]> rotated) ∅ keys) Hnd)
    as (rot' & Hrun & Hrot'); [|by exists rot'].
  intros k. rewrite rotated_init. by destruct (decide (k ∈ keys)).
Qed.


Lemma length_column (k : string) (elements : list DatasetElement) :
  length (column k elements) = length elements.
Proof. unfold column. by rewrite length_fmap. Qed.

Lemma batchKey_column (h : heap) (elements : list DatasetElement)
    (keys : list string) (rotated : gmap string (list jsval))
    (result : DatasetBatch) (key : string) :
  columns_of keys elements rotated → key ∈ keys →
  batchKey h elements rotated result key
    = (v ← batchField h (column key elements); Ok (<[key := v]> result)).
Proof.
  intros Hinv Hkey. unfold batchKey, batchField.
  rewrite (Hinv key), decide_True by done.
  rewrite decide_False by (rewrite length_column; auto).
  destruct (first (column key elements)) as [[x|a|t|s]|]; try done;
    by destruct (batchConcat h (column key elements)).
Qed.

(** The last loop of [makeDatasetBatch], key by key. *)
Lemma result_loop (h : heap) (elements : list DatasetElement)
    (keys : list string) (rotated : gmap string (list jsval))
    (ks : list string) (result : DatasetBatch) :
  columns_of keys elements rotated → (∀ k, k ∈ ks → k ∈ keys) →
  match forEach (batchKey h elements rotated) ks result with
  | Ok result' =>
      (∀ k, k ∈ ks →
         ∃ v, batchField h (column k elements) = Ok v ∧ result' !! k = Some v)
      ∧ (∀ k, k ∉ ks → result' !! k = result !! k)
  | Throw e => ∃ k, k ∈ ks ∧ batchField h (column k elements) = Throw e
  end.
Proof.
  intros Hinv. revert result.
  induction ks as [|key ks IH]; intros result Hsub.
  - simpl. split; [|done]. by intros k ?%not_elem_of_nil.
  - rewrite forEach_cons, (batchKey_column h elements keys) by (done || apply Hsub; by left).
    destruct (batchField h (column key elements)) as [v|e] eqn:Ef; simpl.
    + specialize (IH (<[key := v]> result)).
      destruct (forEach (batchKey h elements rotated) ks (<[key := v]> result))
        as [result'|e].
      * destruct IH as [Hin Hout]; [intros; apply Hsub; by right|].
        split.
        -- intros k Hk. destruct (decide (k ∈ ks)) as [Hks|Hks]; [by apply Hin|].
           apply elem_of_cons in Hk as [->|Hk]; [|done].
           exists v. split; [done|]. by rewrite Hout, lookup_insert_eq.
        -- intros k Hk. apply not_elem_of_cons in Hk as [Hne Hk].
           by rewrite Hout, lookup_insert_ne.
      * destruct IH as (k & Hk & Hf); [intros; apply Hsub; by right|].
        exists k. split; [by right|done].
    + exists key. split; [by left|done].
Qed.

Lemma forEachM_dispose (elements : list DatasetElement) (σ : released) :
  forEachM dispose elements σ = (Ok (), σ ++ elements).
Proof.
  revert σ. induction elements as [|e elements IH]; intros σ; simpl.
  - unfold mret, M_ret. by rewrite app_nil_r.
  - unfold mbind, M_bind, dispose. rewrite IH. by rewrite <- app_assoc.
Qed.

(** [makeDatasetBatch] on a non-empty window, as one case distinction on
    the last loop. *)
Lemma makeDatasetBatch_run (h : heap) (elements : list DatasetElement)
    (e0 : DatasetElement) (σ : released) :
  elements !! 0 = Some e0 →
  ∃ rotated,
    rotate (map_to_list e0).*1 elements = Ok rotated
    ∧ columns_of (map_to_list e0).*1 elements rotated
    ∧ makeDatasetBatch h elements σ
      = match forEach (batchKey h elements rotated) (map_to_list e0).*1 ∅ with
        | Ok result => (Ok result, σ ++ elements)
        | Throw e => (Throw e, σ)
        end.
Proof.
  intros H0.
  destruct (rotate_Ok (map_to_list e0).*1 elements) as (rotated & Hrot & Hinv).
  { apply NoDup_fst_map_to_list. }
  exists rotated. split_and!; [done..|].
  unfold makeDatasetBatch. rewrite H0. simpl.
  unfold mbind, M_bind, lift. rewrite Hrot.
  destruct (forEach (batchKey h elements rotated) (map_to_list e0).*1 ∅); [|done].
  by rewrite forEachM_dispose.
Qed.

Lemma forEach_Ok {A S} (body : S → A → outcome S) (xs : list A) (s s' : S) :
  forEach body xs s = Ok s' → ∀ x, x ∈ xs → ∃ s1 s2, body s1 x = Ok s2.
Proof.
  revert s. induction xs as [|x xs IH]; intros s Hrun y Hy.
  - by apply not_elem_of_nil in Hy.
  - rewrite forEach_cons in Hrun.
    destruct (body s x) as [s1|e1] eqn:E; simpl in Hrun; [|done].
    apply elem_of_cons in Hy as [->|Hy]; [by exists s, s1|by eapply IH].
Qed.

Lemma batchConcat_body_Throw (h : heap) (es : list nat)
    (st : list number * nat) (a : jsval) (e : error) :
  batchConcat_body h es st a = Throw e → e = ShapeMismatch ∨ e = RangeError.
Proof.
  destruct st as [rv off]. unfold batchConcat_body, Float32Array_set.
  destruct (shapeAndValues h a) as [aShape aVals].
  destruct (arraysEqual aShape es); [|intros [= <-]; by left].
  case_decide; simpl; [done|]. intros [= <-]. by right.
Qed.

Lemma batchConcat_body_Ok (h : heap) (es : list nat)
    (st st' : list number * nat) (a : jsval) :
  batchConcat_body h es st a = Ok st' → shapeOf h a = es.
Proof.
  destruct st as [rv off]. unfold batchConcat_body, shapeOf.
  destruct (shapeAndValues h a) as [aShape aVals]; simpl.
  destruct (arraysEqual aShape es) eqn:E; [|done].
  intros _. by apply arraysEqual_spec.
Qed.

(** The only errors [batchConcat] can throw. *)
Lemma batchConcat_Throw (h : heap) (arrays : list jsval) (e : error) :
  batchConcat h arrays = Throw e → e = ShapeMismatch ∨ e = RangeError.
Proof.
  unfold batchConcat. destruct (shapeAndValues h (first arrays)) as [es ?].
  destruct (forEach _ arrays _) as [[rv off]|e'] eqn:E; simpl; [done|].
  intros [= <-]. apply forEach_Throw in E as (s' & a & _ & Hb).
  by eapply batchConcat_body_Throw.
Qed.

(** A concatenation that returns has met values of one shape only. *)
Lemma batchConcat_Ok_shapes (h : heap) (arrays : list jsval) (t : Tensor) :
  batchConcat h arrays = Ok t →
  Forall (λ a, shapeOf h a = shapeOf h (first arrays)) arrays.
Proof.
  unfold batchConcat, shapeOf.
  destruct (shapeAndValues h (first arrays)) as [es ?]; simpl.
  destruct (forEach _ arrays _) as [[rv off]|e'] eqn:E; simpl; [|done].
  intros _. apply Forall_forall. intros a Ha.
  destruct (forEach_Ok _ _ _ _ E a Ha) as (s1 & s2 & Hb).
  by apply batchConcat_body_Ok in Hb.
Qed.

Lemma batchField_Throw (h : heap) (col : list jsval) (e : error) :
  batchField h col = Throw e → e = ShapeMismatch ∨ e = RangeError.
Proof.
  unfold batchField. intros Hf. apply (batchConcat_Throw h col).
  destruct (first col) as [[x|a|t|s]|]; try done;
    destruct (batchConcat h col); simpl in *; congruence.
Qed.

Lemma batchField_text (h : heap) (col : list jsval) (s : string) :
  first col = Some (EString s) → batchField h col = Ok (BStrings col).
Proof. unfold batchField. by intros ->. Qed.

Lemma first_column (key : string) (elements : list DatasetElement)
    (e0 : DatasetElement) :
  elements !! 0 = Some e0 → first (column key elements) = e0 !! key.
Proof.
  unfold first, column. rewrite list_lookup_fmap. by intros ->.
Qed.

(** What [makeDatasetBatch] returns and releases on a non-empty window. *)
Lemma makeDatasetBatch_spec (h : heap) (elements : list DatasetElement)
    (e0 : DatasetElement) (σ : released) :
  elements !! 0 = Some e0 →
  match makeDatasetBatch h elements σ with
  | (Ok batch, σ') =>
      σ' = σ ++ elements
      ∧ (∀ k, is_Some (e0 !! k) →
           ∃ v, batchField h (column k elements) = Ok v ∧ batch !! k = Some v)
      ∧ (∀ k, e0 !! k = None → batch !! k = None)
  | (Throw e, σ') =>
      σ' = σ
      ∧ ∃ k, is_Some (e0 !! k) ∧ batchField h (column k elements) = Throw e
  end.
Proof.
  intros H0.
  destruct (makeDatasetBatch_run h elements e0 σ H0) as (rot & _ & Hinv & ->).
  pose proof (result_loop h elements _ rot (map_to_list e0).*1 ∅ Hinv
                (λ k Hk, Hk)) as Hloop.
  destruct (forEach (batchKey h elements rot) (map_to_list e0).*1 ∅)
    as [batch|e].
  - destruct Hloop as [Hin Hout]. split_and!; [done| |].
    + intros k Hk. apply Hin. by apply elem_of_keys.
    + intros k Hk. rewrite Hout, lookup_empty; [done|].
      rewrite elem_of_keys, Hk. by intros [??].
  - destruct Hloop as (k & Hk & Hf). split; [done|].
    exists k. split; [by apply elem_of_keys|done].
Qed.

(** The outcome of a failing window is one of the two errors of
    [batchConcat]. *)
Lemma makeDatasetBatch_Throw (h : heap) (elements : list DatasetElement)
    (e0 : DatasetElement) (σ : released) (e : error) :
  elements !! 0 = Some e0 →
  (makeDatasetBatch h elements σ).1 = Throw e →
  e = ShapeMismatch ∨ e = RangeError.
Proof.
  intros H0 Hthrow. pose proof (makeDatasetBatch_spec h elements e0 σ H0) as Hs.
  destruct (makeDatasetBatch h elements σ) as [[batch|e'] σ']; [done|].
  simpl in Hthrow. injection Hthrow as ->.
  destruct Hs as (_ & k & _ & Hf). by eapply batchField_Throw.
Qed.

(** A window all of whose fields can be assembled is assembled. *)
Lemma makeDatasetBatch_Ok (h : heap) (elements : list DatasetElement)
    (e0 : DatasetElement) (σ : released) :
  elements !! 0 = Some e0 →
  (∀ k, is_Some (e0 !! k) → ∃ v, batchField h (column k elements) = Ok v) →
  ∃ batch, (makeDatasetBatch h elements σ).1 = Ok batch.
Proof.
  intros H0 Hall. pose proof (makeDatasetBatch_spec h elements e0 σ H0) as Hs.
  destruct (makeDatasetBatch h elements σ) as [[batch|e'] σ']; [by eexists|].
  destruct Hs as (_ & k & Hk & Hf). destruct (Hall k Hk) as [v Hv]. congruence.
Qed.

(** C2 (as amended): when the transposition and the concatenation of a
    window succeed, every record of the window is released exactly once,
    in order, after all its fields are concatenated; when they fail, the
    error propagates and no record is released. *)
Theorem dispose_only_after_success (h : heap)
    (elements : list DatasetElement) (σ : released) :
  match makeDatasetBatch h elements σ with
  | (Ok _, σ') => σ' = σ ++ elements
  | (Throw _, σ') => σ' = σ
  end.
Proof.
  destruct (elements !! 0) as [e0|] eqn:H0.
  - pose proof (makeDatasetBatch_spec h elements e0 σ H0) as Hs.
    destruct (makeDatasetBatch h elements σ) as [[batch|e] σ']; by destruct Hs.
  - unfold makeDatasetBatch. by rewrite H0.
Qed.

(** C9: on a non-empty list of records the transposition returns, every
    key of the template has a column with one value per record, and the
    sanity check of [makeDatasetBatch] never fires. *)
Theorem sanity_check_unreachable (h : heap) (elements : list DatasetElement) :
  elements ≠ [] →
  (∃ keys rotated,
      Object_keys (elements !! 0) = Ok keys
      ∧ rotate keys elements = Ok rotated
      ∧ ∀ key, key ∈ keys →
          ∃ col, rotated !! key = Some col ∧ length col = length elements)
  ∧ ∀ σ key,
      (makeDatasetBatch h elements σ).1 ≠ Throw (SanityCheckFailed key).
Proof.
  intros Hne. destruct elements as [|e0 elements']; [done|].
  set (elements := e0 :: elements'). split.
  - destruct (makeDatasetBatch_run h elements e0 [] eq_refl)
      as (rot & Hrot & Hinv & _).
    exists (map_to_list e0).*1, rot. split_and!; [done..|].
    intros key Hkey. exists (column key elements).
    split; [|apply length_column]. by rewrite (Hinv key), decide_True.
  - intros σ key Hthrow.
    by destruct (makeDatasetBatch_Throw h elements e0 σ _ eq_refl Hthrow).
Qed.

(** The batch value of a field whose first value is text. *)
Lemma text_field_in_batch (h : heap) (elements : list DatasetElement)
    (e0 : DatasetElement) (key : string) (s : string) (σ : released)
    (batch : DatasetBatch) :
  elements !! 0 = Some e0 → e0 !! key = Some (EString s) →
  (makeDatasetBatch h elements σ).1 = Ok batch →
  batch !! key = Some (BStrings (column key elements)).
Proof.
  intros H0 Hkey Hok.
  pose proof (makeDatasetBatch_spec h elements e0 σ H0) as Hs.
  destruct (makeDatasetBatch h elements σ) as [[batch'|e'] σ']; [|done].
  simpl in Hok. injection Hok as ->.
  destruct Hs as (_ & Hin & _). destruct (Hin key) as (v & Hv & Hb).
  { by rewrite Hkey. }
  rewrite (batchField_text _ _ s) in Hv; [congruence|].
  by rewrite (first_column key elements e0).
Qed.

(** C5 (as amended): a field whose first value is text is not checked any
    further.  Its batch value is the ordered sequence of the values read
    for the field, as they are and without concatenation, so the ordered
    sequence of the strings when all of them are text; a later numeric
    value raises no error. *)
Theorem text_field_passes_through (h : heap) (elements : list DatasetElement)
    (e0 : DatasetElement) (key : string) (s : string) (σ : released) :
  elements !! 0 = Some e0 → e0 !! key = Some (EString s) →
  batchField h (column key elements) = Ok (BStrings (column key elements))
  ∧ (∀ batch, (makeDatasetBatch h elements σ).1 = Ok batch →
       batch !! key = Some (BStrings (column key elements)))
  ∧ (∀ e, (makeDatasetBatch h elements σ).1 = Throw e → e ≠ TypeMismatch)
  ∧ (∀ strs : list string,
       Forall2 (λ e str, e !! key = Some (EString str)) elements strs →
       column key elements = (λ str, Some (EString str)) <$> strs).
Proof.
  intros H0 Hkey.
  assert (batchField h (column key elements)
          = Ok (BStrings (column key elements))) as Hf.
  { apply (batchField_text _ _ s). by rewrite (first_column key elements e0). }
  split_and!; [done| | |].
  - intros batch Hok. by apply (text_field_in_batch h elements e0 key s σ).
  - intros e Hthrow.
    by destruct (makeDatasetBatch_Throw h elements e0 σ e H0 Hthrow) as [->| ->].
  - intros strs Hall. unfold column. clear H0 Hf.
    induction Hall as [|e str es strs He _ IH]; csimpl; [done|].
    by rewrite He, IH.
Qed.

(** The tensor of a field whose first value is not a string. *)
Lemma numeric_field_tensor (h : heap) (elements : list DatasetElement)
    (e0 : DatasetElement) (key : string) (v : ElementArray) (σ : released)
    (batch : DatasetBatch) :
  elements !! 0 = Some e0 → e0 !! key = Some v →
  (∀ s, v ≠ EString s) →
  Forall value_wf (column key elements) →
  (makeDatasetBatch h elements σ).1 = Ok batch →
  batch !! key
    = Some (BTensor (Tensor_make (length elements :: shapeOf h (Some v))
              (toFloat32 <$> concat (flatValues h <$> column key elements))))
  ∧ Forall (λ a, shapeOf h a = shapeOf h (Some v)) (column key elements).
Proof.
  intros H0 Hv Hnum Hwf Hok.
  pose proof (makeDatasetBatch_spec h elements e0 σ H0) as Hs.
  destruct (makeDatasetBatch h elements σ) as [[batch'|e'] σ']; [|done].
  simpl in Hok. injection Hok as ->.
  destruct Hs as (_ & Hin & _). destruct (Hin key) as (bv & Hf & Hb).
  { by rewrite Hv. }
  pose proof (first_column key elements e0 H0) as Hfirst. rewrite Hv in Hfirst.
  unfold batchField in Hf. rewrite Hfirst in Hf.
  assert (batchConcat h (column key elements) ≫= (λ t, Ok (BTensor t))
          = Ok bv) as Hf'.
  { destruct v; try done. by destruct (Hnum s). }
  clear Hf. destruct (batchConcat h (column key elements)) as [t|] eqn:Hbc;
    [|done].
  simpl in Hf'. injection Hf' as <-.
  pose proof (batchConcat_Ok_shapes h _ t Hbc) as Hsame.
  rewrite (batchConcat_same h _ Hwf Hsame) in Hbc. injection Hbc as <-.
  rewrite Hfirst, length_column in Hb. by rewrite Hfirst in Hsame.
Qed.

(** C3 (as amended): a record after the first that lacks a key of the
    first record, the key not being the name of a member of
    [Object.prototype], does not make the batch assembly fail with a schema
    error: the missing value is read as [undefined] and takes the record's
    position in the column of the key.  A window can fail with the shape
    error or a range error only.  A text field keeps [undefined] in place,
    and a window whose template has text fields only is assembled; a
    numeric field whose element shape is not empty makes the window fail;
    a numeric field whose element shape is empty stores [NaN] at the
    record's position of the batch tensor. *)
Theorem missing_key_reads_undefined (h : heap)
    (elements : list DatasetElement) (e0 e : DatasetElement) (i : nat)
    (key : string) (σ : released) :
  elements !! 0 = Some e0 → elements !! i = Some e →
  is_Some (e0 !! key) → e !! key = None → inherits key = false →
  (get e key = Undefined ∧ column key elements !! i = Some None)
  ∧ (∀ err, (makeDatasetBatch h elements σ).1 = Throw err →
       err = ShapeMismatch ∨ err = RangeError)
  ∧ (∀ s batch, e0 !! key = Some (EString s) →
       (makeDatasetBatch h elements σ).1 = Ok batch →
       ∃ ss, batch !! key = Some (BStrings ss)
         ∧ length ss = length elements ∧ ss !! i = Some None)
  ∧ ((∀ k v, e0 !! k = Some v → ∃ s, v = EString s) →
       ∃ batch, (makeDatasetBatch h elements σ).1 = Ok batch)
  ∧ (∀ v, e0 !! key = Some v → (∀ s, v ≠ EString s) →
       shapeOf h (Some v) ≠ [] →
       ∃ err, (makeDatasetBatch h elements σ).1 = Throw err)
  ∧ (∀ v batch, e0 !! key = Some v → (∀ s, v ≠ EString s) →
       shapeOf h (Some v) = [] →
       Forall value_wf (column key elements) →
       (makeDatasetBatch h elements σ).1 = Ok batch →
       ∃ t, batch !! key = Some (BTensor t)
         ∧ shape t = [length elements]
         ∧ dataSync t !! i = Some (fround NaN)).
Proof.
  intros H0 Hi [v0 Hv0] Hmiss Hplain.
  assert (column key elements !! i = Some None) as Hcol.
  { unfold column. by rewrite list_lookup_fmap, Hi, <- Hmiss. }
  pose proof (makeDatasetBatch_spec h elements e0 σ H0) as Hs.
  split_and!; [by unfold get; rewrite Hmiss, Hplain|done| | | | |].
  - intros err. by apply makeDatasetBatch_Throw with e0.
  - intros s batch Hs0 Hok. exists (column key elements).
    split_and!; [|apply length_column|done].
    by apply (text_field_in_batch h elements e0 key s σ).
  - intros Htext. apply makeDatasetBatch_Ok with e0; [done|].
    intros k [v Hv]. destruct (Htext k v Hv) as [s ->].
    exists (BStrings (column k elements)).
    apply (batchField_text _ _ s). by rewrite (first_column k elements e0).
  - intros v Hv Hnum Hshape.
    destruct (makeDatasetBatch h elements σ) as [[batch|err] σ'];
      [|by eexists].
    destruct Hs as (_ & Hin & _). destruct (Hin key) as (bv & Hf & _).
    { by rewrite Hv. }
    unfold batchField in Hf.
    pose proof (first_column key elements e0 H0) as Hfirst.
    rewrite Hv in Hfirst. rewrite Hfirst in Hf.
    destruct (batchConcat h (column key elements)) as [t|] eqn:Hbc.
    + apply batchConcat_Ok_shapes in Hbc. rewrite Forall_lookup in Hbc.
      specialize (Hbc i None Hcol). rewrite Hfirst in Hbc.
      by rewrite <- Hbc in Hshape.
    + destruct v; try done; by destruct (Hnum s).
  - intros v batch Hv Hnum Hshape Hwf Hok.
    destruct (numeric_field_tensor h elements e0 key v σ batch
                H0 Hv Hnum Hwf Hok) as [Hb Hsame].
    eexists. split; [exact Hb|]. rewrite Hshape in *. split; [done|].
    simpl. rewrite fmap_concat_flat.
    replace i with (i * sizeFromShape [] + 0) at 1
      by (unfold sizeFromShape; simpl; lia).
    eapply lookup_concat_uniform.
    + by apply flatValues_uniform.
    + by rewrite list_lookup_fmap, Hcol.
    + done.
Qed.








(** ** [shapeAndValues] *)

(** C7 (as amended): a scalar [x] gives shape [[]] and the new buffer
    [[x]]; a tensor gives its shape and its buffer unchanged; a numeric
    array gives shape [[len(xs)]] and, as flat buffer, the source array
    itself, not a copy of it: the buffer reads [xs], and a later write to
    the source array shows through it. *)
Theorem shapeAndValues_cases (h : heap) :
  (∀ x, shapeAndValues h (Some (ENumber x)) = ([], Literal [PNumber x]))
  ∧ (∀ a,
       shapeAndValues h (Some (EArray a))
         = ([length (deref h a)], SameArray a)
       ∧ flatValues h (Some (EArray a)) = PNumber <$> deref h a
       ∧ ∀ xs', entries (<[a := xs']> h) (shapeAndValues h (Some (EArray a))).2
                = PNumber <$> xs')
  ∧ (∀ t,
       shapeAndValues h (Some (ETensor t)) = (shape t, TensorData (dataSync t))
       ∧ flatValues h (Some (ETensor t)) = PNumber <$> dataSync t).
Proof.
  split_and!; try done. intros a. split_and!; try done.
  intros xs'. simpl. unfold deref. by rewrite lookup_insert_eq.
Qed.

(** ** Further properties of [shapeAndValues] and [batchConcat] *)

Lemma forEach_invariant {A S} (P : S → Prop) (body : S → A → outcome S)
    (xs : list A) (s s' : S) :
  (∀ s x s', body s x = Ok s' → P s → P s') →
  P s → forEach body xs s = Ok s' → P s'.
Proof.
  intros Hstep. revert s. induction xs as [|x xs IH]; intros s Hs Hrun.
  - by injection Hrun as <-.
  - rewrite forEach_cons in Hrun.
    destruct (body s x) as [s1|e] eqn:E; simpl in Hrun; [|done].
    apply (IH s1); [by eapply Hstep|done].
Qed.

Lemma batchConcat_body_length (h : heap) (es : list nat)
    (st st' : list number * nat) (a : jsval) :
  batchConcat_body h es st a = Ok st' → length st'.1 = length st.1.
Proof.
  destruct st as [rv off]. unfold batchConcat_body, Float32Array_set.
  destruct (shapeAndValues h a) as [aShape aVals].
  destruct (arraysEqual aShape es); [|done].
  case_decide as Hfit; simpl; [|done]. intros [= <-]. simpl.
  rewrite !length_app, length_take, length_fmap, length_drop. lia.
Qed.

Lemma sizeFromShape_cons (n : nat) (s : list nat) :
  sizeFromShape (n :: s) = n * sizeFromShape s.
Proof.
  unfold sizeFromShape. simpl. rewrite Nat.add_0_r.
  rewrite <- (Nat.mul_1_r n) at 1. apply foldl_mul_scale.
Qed.

(** The shape and the size of what a returning [batchConcat] builds. *)
Lemma batchConcat_Ok_inv (h : heap) (arrays : list jsval) (t : Tensor) :
  batchConcat h arrays = Ok t →
  shape t = length arrays :: shapeOf h (first arrays)
  ∧ length (dataSync t)
      = length arrays * sizeFromShape (shapeOf h (first arrays)).
Proof.
  unfold batchConcat, shapeOf.
  destruct (shapeAndValues h (first arrays)) as [es ?]; simpl.
  destruct (forEach _ arrays _) as [[rv off]|e'] eqn:E; simpl; [|done].
  intros [= <-]. simpl. split; [done|].
  apply (forEach_invariant
           (λ st, length st.1 = length arrays * sizeFromShape es)) in E.
  - done.
  - intros st a st' Hb Hst. by rewrite (batchConcat_body_length _ _ _ _ _ Hb).
  - simpl. unfold Float32Array.
    by rewrite length_replicate, reduce_mul_sizeFromShape.
Qed.

(** X2: whatever the values are, the tensor a returning [batchConcat]
    builds satisfies the class invariant (its buffer has as many cells as
    its shape), and its first dimension is the number of values. *)
Theorem batchConcat_builds_wf_tensor (h : heap) (arrays : list jsval)
    (t : Tensor) :
  batchConcat h arrays = Ok t →
  tensor_wf t ∧ head (shape t) = Some (length arrays).
Proof.
  intros Hok. destruct (batchConcat_Ok_inv h arrays t Hok) as [Hshape Hlen].
  unfold tensor_wf. rewrite Hshape, Hlen. split; [|done].
  by rewrite sizeFromShape_cons.
Qed.

Lemma scalar_like_flatValues (h : heap) (a : jsval) :
  scalar_like a →
  shapeOf h a = [] ∧ value_wf a
  ∧ toFloat32 <$> flatValues h a = [scalar_cell a].
Proof. by destruct a as [[x|l|t|s]|]. Qed.

Lemma scalar_cells (h : heap) (arrays : list jsval) :
  Forall scalar_like arrays →
  toFloat32 <$> concat (flatValues h <$> arrays) = scalar_cell <$> arrays.
Proof.
  intros Hsc. rewrite fmap_concat_flat.
  induction Hsc as [|a arrays Ha _ IH]; csimpl; [done|].
  destruct (scalar_like_flatValues h a Ha) as (_ & _ & ->).
  simpl. by f_equal.
Qed.

(** X3: a column of numbers, strings and missing values is concatenated
    without error into a tensor of shape [[n]]: all of them have shape
    [[]], a number is stored rounded to float32, a string is stored as
    the float32 of its conversion to a number, and a missing value as the
    float32 of [NaN]. *)
Theorem batchConcat_scalars (h : heap) (arrays : list jsval) :
  Forall scalar_like arrays →
  batchConcat h arrays
    = Ok (Tensor_make [length arrays] (scalar_cell <$> arrays)).
Proof.
  intros Hsc.
  assert (shapeOf h (first arrays) = []) as Hfirst.
  { destruct arrays as [|a arrays]; [done|].
    apply Forall_cons in Hsc as [Ha _]. by apply scalar_like_flatValues. }
  rewrite batchConcat_same.
  - by rewrite Hfirst, scalar_cells.
  - eapply Forall_impl; [exact Hsc|]. intros a Ha.
    by apply scalar_like_flatValues.
  - rewrite Hfirst. eapply Forall_impl; [exact Hsc|]. intros a Ha.
    by apply (scalar_like_flatValues h).
Qed.

(** On values that satisfy the class invariant [batchConcat] either
    returns or throws the shape error. *)
Lemma batchConcat_wf_cases (h : heap) (arrays : list jsval) :
  Forall value_wf arrays →
  (∃ t, batchConcat h arrays = Ok t)
  ∨ batchConcat h arrays = Throw ShapeMismatch.
Proof.
  intros Hwf.
  destruct (decide (Forall (λ a, shapeOf h a = shapeOf h (first arrays))
                      arrays)) as [Hsame|Hdiff].
  - left. eexists. by apply batchConcat_same.
  - right. apply batchConcat_differs; [done|].
    by apply not_Forall_Exists in Hdiff; [|apply _].
Qed.

(** ** Further properties of [makeDatasetBatch] *)

(** X4: [makeDatasetBatch] throws a [TypeError] exactly on the empty list
    of elements, where [Object.keys] is applied to [undefined]; nothing is
    released then. *)
Theorem makeDatasetBatch_TypeError_iff_empty (h : heap)
    (elements : list DatasetElement) (σ : released) :
  ((makeDatasetBatch h elements σ).1 = Throw TypeError ↔ elements = [])
  ∧ makeDatasetBatch h [] σ = (Throw TypeError, σ).
Proof.
  split; [|done]. split.
  - destruct elements as [|e0 elements']; [done|]. intros Hthrow.
    by destruct (makeDatasetBatch_Throw h (e0 :: elements') e0 σ _
                   eq_refl Hthrow).
  - by intros ->.
Qed.

Lemma column_wf (key : string) (elements : list DatasetElement) :
  window_wf elements → Forall value_wf (column key elements).
Proof.
  intros Hwf. unfold column. apply Forall_fmap, Forall_forall.
  intros e He. simpl. destruct (e !! key) as [v|] eqn:E; [|done].
  by apply (Hwf e key v).
Qed.

Lemma batchField_numeric (h : heap) (col : list jsval) (v : ElementArray) :
  first col = Some v → (∀ s, v ≠ EString s) →
  batchField h col = (t ← batchConcat h col; Ok (BTensor t)).
Proof.
  unfold batchField. intros -> Hnum.
  destruct v as [x|a|t|s]; try done. by destruct (Hnum s).
Qed.

Lemma text_or_not (v : ElementArray) :
  (∃ s, v = EString s) ∨ (∀ s, v ≠ EString s).
Proof. destruct v; eauto. Qed.

(** X5: a non-empty window whose tensors satisfy the class invariant
    either is assembled or fails with the shape error, and it is assembled
    exactly when, in every field whose first value is not a string, all
    values have the shape of the first. *)
Theorem makeDatasetBatch_succeeds_iff (h : heap)
    (elements : list DatasetElement) (e0 : DatasetElement) (σ : released) :
  elements !! 0 = Some e0 → window_wf elements →
  ((∃ batch, (makeDatasetBatch h elements σ).1 = Ok batch)
   ↔ ∀ k v, e0 !! k = Some v → (∀ s, v ≠ EString s) →
       Forall (λ a, shapeOf h a = shapeOf h (Some v)) (column k elements))
  ∧ ((∃ batch, (makeDatasetBatch h elements σ).1 = Ok batch)
     ∨ (makeDatasetBatch h elements σ).1 = Throw ShapeMismatch).
Proof.
  intros H0 Hwf.
  pose proof (makeDatasetBatch_spec h elements e0 σ H0) as Hs.
  split; [split|].
  - intros [batch Hok] k v Hv Hnum.
    destruct (makeDatasetBatch h elements σ) as [[batch'|e'] σ']; [|done].
    destruct Hs as (_ & Hin & _). destruct (Hin k) as (bv & Hf & _).
    { by rewrite Hv. }
    pose proof (first_column k elements e0 H0) as Hfirst. rewrite Hv in Hfirst.
    rewrite (batchField_numeric h _ v Hfirst Hnum) in Hf.
    destruct (batchConcat h (column k elements)) as [t|] eqn:Hbc; [|done].
    apply batchConcat_Ok_shapes in Hbc. by rewrite Hfirst in Hbc.
  - intros Hall. apply makeDatasetBatch_Ok with e0; [done|].
    intros k [v Hv].
    pose proof (first_column k elements e0 H0) as Hfirst. rewrite Hv in Hfirst.
    destruct (text_or_not v) as [[s ->]|Hnum'].
    + eexists. by apply (batchField_text _ _ s).
    + rewrite (batchField_numeric h _ v Hfirst Hnum').
      rewrite batchConcat_same; [by eexists|by apply column_wf|].
      rewrite Hfirst. by apply Hall.
  - destruct (makeDatasetBatch h elements σ) as [[batch'|e'] σ'];
      [left; by eexists|right]. simpl.
    destruct Hs as (_ & k & [v Hv] & Hf). f_equal.
    pose proof (first_column k elements e0 H0) as Hfirst. rewrite Hv in Hfirst.
    destruct (text_or_not v) as [[s ->]|Hnum'].
    + by rewrite (batchField_text _ _ s) in Hf.
    + rewrite (batchField_numeric h _ v Hfirst Hnum') in Hf.
      destruct (batchConcat_wf_cases h (column k elements)) as [[t Ht]|Ht];
        [by apply column_wf|..]; rewrite Ht in Hf; simpl in Hf; congruence.
Qed.

(** X6: in a produced batch, a field whose first value is not a string
    holds a tensor of shape [[n, ...elementShape]], [n] being the number
    of records, whose slice [i] is the float32 conversion of the flat
    values of record [i] for that key. *)
Theorem numeric_field_in_batch (h : heap) (elements : list DatasetElement)
    (e0 : DatasetElement) (key : string) (v : ElementArray) (σ : released)
    (batch : DatasetBatch) :
  elements !! 0 = Some e0 → e0 !! key = Some v → (∀ s, v ≠ EString s) →
  Forall value_wf (column key elements) →
  (makeDatasetBatch h elements σ).1 = Ok batch →
  ∃ t, batch !! key = Some (BTensor t)
    ∧ shape t = length elements :: shapeOf h (Some v)
    ∧ ∀ i e, elements !! i = Some e →
        slice (sizeFromShape (shapeOf h (Some v))) i (dataSync t)
          = toFloat32 <$> flatValues h (e !! key).
Proof.
  intros H0 Hv Hnum Hwf Hok.
  pose proof (makeDatasetBatch_spec h elements e0 σ H0) as Hs.
  destruct (makeDatasetBatch h elements σ) as [[batch'|e'] σ']; [|done].
  simpl in Hok. injection Hok as ->.
  destruct Hs as (_ & Hin & _). destruct (Hin key) as (bv & Hf & Hb).
  { by rewrite Hv. }
  pose proof (first_column key elements e0 H0) as Hfirst. rewrite Hv in Hfirst.
  rewrite (batchField_numeric h _ v Hfirst Hnum) in Hf.
  destruct (batchConcat h (column key elements)) as [t|] eqn:Hbc; [|done].
  simpl in Hf. injection Hf as <-. exists t. split; [done|].
  pose proof (batchConcat_Ok_shapes h _ t Hbc) as Hsame.
  rewrite (batchConcat_same h _ Hwf Hsame) in Hbc. injection Hbc as <-.
  rewrite Hfirst in *. simpl. rewrite length_column. split; [done|].
  intros i e Hi. rewrite fmap_concat_flat. apply slice_concat.
  - by apply flatValues_uniform.
  - unfold column. by rewrite !list_lookup_fmap, Hi.
Qed.

(** X7: the fields of a batch are assembled independently: two windows
    with the same column for a key of their first records, when both are
    assembled, give the same batch value for that key, whatever their
    other fields hold. *)
Theorem batch_fields_independent (h : heap)
    (es1 es2 : list DatasetElement) (e1 e2 : DatasetElement) (key : string)
    (σ1 σ2 : released) (b1 b2 : DatasetBatch) :
  es1 !! 0 = Some e1 → es2 !! 0 = Some e2 → is_Some (e1 !! key) →
  column key es1 = column key es2 →
  (makeDatasetBatch h es1 σ1).1 = Ok b1 →
  (makeDatasetBatch h es2 σ2).1 = Ok b2 →
  b1 !! key = b2 !! key ∧ is_Some (b1 !! key).
Proof.
  intros H1 H2 Hk1 Hcol Hok1 Hok2.
  assert (is_Some (e2 !! key)) as Hk2.
  { rewrite <- (first_column key es2 e2 H2), <- Hcol.
    by rewrite (first_column key es1 e1 H1). }
  pose proof (makeDatasetBatch_spec h es1 e1 σ1 H1) as Hs1.
  pose proof (makeDatasetBatch_spec h es2 e2 σ2 H2) as Hs2.
  destruct (makeDatasetBatch h es1 σ1) as [[b1'|?] ?]; [|done].
  destruct (makeDatasetBatch h es2 σ2) as [[b2'|?] ?]; [|done].
  simpl in Hok1, Hok2. injection Hok1 as ->. injection Hok2 as ->.
  destruct Hs1 as (_ & Hin1 & _). destruct Hs2 as (_ & Hin2 & _).
  destruct (Hin1 key Hk1) as (v1 & Hf1 & ->).
  destruct (Hin2 key Hk2) as (v2 & Hf2 & ->).
  rewrite Hcol in Hf1. split; [congruence|by eexists].
Qed.

(** X8: every value of a produced batch spans the window: a tensor has
    the number of records as its first dimension, and a text field has one
    entry per record. *)
Theorem batch_values_span_window (h : heap) (elements : list DatasetElement)
    (e0 : DatasetElement) (σ : released) (batch : DatasetBatch)
    (key : string) (bv : BatchValue) :
  elements !! 0 = Some e0 →
  (makeDatasetBatch h elements σ).1 = Ok batch →
  batch !! key = Some bv →
  match bv with
  | BTensor t => head (shape t) = Some (length elements)
  | BStrings ss => length ss = length elements
  end.
Proof.
  intros H0 Hok Hb.
  pose proof (makeDatasetBatch_spec h elements e0 σ H0) as Hs.
  destruct (makeDatasetBatch h elements σ) as [[batch'|e'] σ']; [|done].
  simpl in Hok. injection Hok as ->. destruct Hs as (_ & Hin & Hout).
  destruct (e0 !! key) as [v|] eqn:Hv; [|by rewrite (Hout key Hv) in Hb].
  destruct (Hin key) as (bv' & Hf & Hb'); [by rewrite Hv|].
  assert (bv' = bv) as -> by congruence.
  unfold batchField in Hf.
  destruct (first (column key elements)) as [[x|a|t|s]|];
    try (destruct (batchConcat h (column key elements)) as [t'|] eqn:Hbc;
         [|done]; simpl in Hf; injection Hf as <-;
         apply batchConcat_Ok_inv in Hbc as [-> _];
         simpl; by rewrite length_column).
  injection Hf as <-. apply length_column.
Qed.

(** X9: when the first record has no key, the batch is empty whatever the
    later records hold, the window never fails, and all its records are
    released. *)
Theorem empty_template_gives_empty_batch (h : heap)
    (elements : list DatasetElement) (σ : released) :
  elements !! 0 = Some ∅ →
  makeDatasetBatch h elements σ = (Ok ∅, σ ++ elements).
Proof.
  intros H0. pose proof (makeDatasetBatch_spec h elements ∅ σ H0) as Hs.
  destruct (makeDatasetBatch h elements σ) as [[batch|e] σ'].
  - destruct Hs as (-> & _ & Hout). f_equal. f_equal.
    apply map_eq. intros k. rewrite lookup_empty. by apply Hout.
  - destruct Hs as (_ & k & [v Hv] & _). by rewrite lookup_empty in Hv.
Qed.

End Properties.

(** * Worked examples *)

(** The worked example of the specification: three records, [batchSize = 2]
    and [smallLastBatch = true] give the batches
    [{a: buffer([1, 2]) shape [2], b: ["x", "y"]}] and
    [{a: buffer([3]) shape [1], b: ["z"]}]. *)
Example getStream_abc :
  (λ pull : M DatasetBatch, (pull []).1)
    <$> getStream Sample.h0 Sample.abc_dataset
  = [ Ok {[ "a" := BTensor (mkTensor [2]
                      [Sample.Fround (Sample.Lit 1);
                       Sample.Fround (Sample.Lit 2)]);
            "b" := BStrings [Some (EString "x"); Some (EString "y")] ]};
      Ok {[ "a" := BTensor (mkTensor [1] [Sample.Fround (Sample.Lit 3)]);
            "b" := BStrings [Some (EString "z")] ]} ].
Proof. reflexivity. Qed.

(** With [smallLastBatch = false] only the first batch is emitted. *)
Example getStream_abc_drop_last :
  length (getStream Sample.h0 (mkBatchDataset Sample.abc 2 false)) = 1.
Proof. reflexivity. Qed.

(** C8 as stated fails: constructing a batching stage with [batchSize = 0]
    does not raise [InvalidConfiguration], it returns the stage. *)
Lemma constructor_accepts_zero_batchSize :
  constructor Sample.abc 0 None = Ok (mkBatchDataset Sample.abc 0 true)
  ∧ ¬ validates_batchSize.
Proof.
  split; [reflexivity|]. intros Hc.
  specialize (Hc Sample.abc 0%Z None ltac:(lia)). discriminate Hc.
Qed.

(** C2 as stated fails: the window [[{a: [1, 2]}, {a: [1, 2, 3]}]] fails
    with the shape error and none of its two records is released. *)
Lemma failing_window_is_not_released :
  makeDatasetBatch Sample.h0 Sample.ragged [] = (Throw ShapeMismatch, [])
  ∧ ¬ releases_on_every_path Sample.h0 Sample.ragged.
Proof.
  split; [reflexivity|]. intros Hc. specialize (Hc []).
  vm_compute in Hc. discriminate Hc.
Qed.

(** C3 as stated fails: in the window [[{b: "x"}, {}]] the second record
    lacks the key [b], and yet the batch [{b: ["x", undefined]}] is
    produced. *)
Lemma missing_key_still_batched :
  (makeDatasetBatch Sample.h0 Sample.missing []).1
    = Ok {[ "b" := BStrings [Some (EString "x"); None] ]}
  ∧ ¬ fails_on_missing_key Sample.h0 Sample.missing.
Proof.
  split; [reflexivity|]. intros Hc.
  assert ((makeDatasetBatch Sample.h0 Sample.missing []).1
          = Throw SchemaMismatch) as Hthrow; [|discriminate Hthrow].
  apply Hc. exists {[ "b" := EString "x" ]}, 1, ∅, "b".
  split_and!; [reflexivity|reflexivity|by eexists|reflexivity].
Qed.

(** C5 as stated fails: in the window [[{b: "x"}, {b: 1}]] the text field
    [b] meets a number, and yet the batch [{b: ["x", 1]}] is produced. *)
Lemma mixed_text_field_still_batched :
  (makeDatasetBatch Sample.h0 Sample.mixed []).1
    = Ok {[ "b" := BStrings [Some (EString "x");
                             Some (ENumber (Sample.Lit 1))] ]}
  ∧ ¬ fails_on_mixed_text_field Sample.h0 Sample.mixed.
Proof.
  split; [reflexivity|]. intros Hc.
  assert ((makeDatasetBatch Sample.h0 Sample.mixed []).1
          = Throw TypeMismatch) as Hthrow; [|discriminate Hthrow].
  apply Hc.
  exists {[ "b" := EString "x" ]}, "b", "x", 1,
    {[ "b" := @ENumber Sample.env (Sample.Lit 1) ]}, (Sample.Lit 1).
  split_and!; reflexivity.
Qed.

(** C7 as stated fails: the buffer returned for the array [[1, 2]] at
    address 1 is that array, so emptying the array afterwards empties what
    the buffer reads. *)
Lemma array_buffer_is_aliased :
  entries (<[1%positive := []]> Sample.h0)
      (shapeAndValues Sample.h0 (Some (EArray 1%positive))).2 = []
  ∧ entries Sample.h0
      (shapeAndValues Sample.h0 (Some (EArray 1%positive))).2
      = [PNumber (Sample.Lit 1); PNumber (Sample.Lit 2)]
  ∧ ¬ returns_copy Sample.h0 1%positive.
Proof.
  split_and!; [reflexivity..|]. intros Hc. specialize (Hc []).
  vm_compute in Hc. discriminate Hc.
Qed.

(** The stage over the three records with [batchSize = 2] and
    [smallLastBatch = true] emits [ceil(3/2) = 2] batches, the last one
    with [3 mod 2 = 1] record. *)
Lemma batches_emitted_witness :
  (0 < batchSize Sample.abc_dataset)%Z
  ∧ length (getStream Sample.h0 Sample.abc_dataset)
      = length (DataStream_batch 2 true Sample.abc)
  ∧ Z.of_nat (length (DataStream_batch 2 true Sample.abc))
      = ((3 + 2 - 1) / 2)%Z
  ∧ ∀ w, last (DataStream_batch 2 true Sample.abc) = Some w →
      Z.of_nat (length w) = 1%Z.
Proof.
  assert (0 < batchSize Sample.abc_dataset)%Z as HB by (simpl; lia).
  destruct (batches_emitted Sample.h0 Sample.abc_dataset HB)
    as (_ & Hlen & Htrue & _).
  destruct (Htrue eq_refl) as (Hcount & _ & _ & Hlast).
  split_and!; [exact HB|exact Hlen|exact Hcount|exact Hlast].
Defined.

(** The column [[[1, 2], [1, 2, 3]]] fails with the shape error; in the
    column of a tensor [[5, 6]] and the array [[1, 2]], cell [1 × 2 + 0]
    holds the first value of the second record. *)
Lemma batchConcat_shape_check_witness :
  Forall value_wf Sample.ragged_column
  ∧ batchConcat Sample.h0 Sample.ragged_column = Throw ShapeMismatch
  ∧ Forall value_wf Sample.pairs
  ∧ ∃ t, batchConcat Sample.h0 Sample.pairs = Ok t
      ∧ dataSync t !! (1 * 2 + 0) = Some (toFloat32 (PNumber (Sample.Lit 1))).
Proof.
  assert (Forall value_wf Sample.ragged_column) as Hwf.
  { repeat constructor. }
  assert (Forall value_wf Sample.pairs) as Hwf'.
  { repeat constructor. }
  split_and!; [exact Hwf| |exact Hwf'|].
  - apply (batchConcat_shape_check Sample.h0 Sample.ragged_column Hwf).
    apply Exists_cons_tl, Exists_cons_hd. vm_compute. discriminate.
  - destruct (batchConcat_shape_check Sample.h0 Sample.pairs Hwf') as [_ Hsame].
    destruct Hsame as (t & Ht & Hcell); [repeat constructor|].
    exists t. split; [exact Ht|].
    exact (Hcell 1 (Some (EArray 1%positive)) 0 (PNumber (Sample.Lit 1))
             eq_refl eq_refl).
Defined.

(** A tensor and an array of shape [[2]] are concatenated into a tensor of
    shape [[2, 2]] whose two slices are their converted values. *)
Lemma batchConcat_roundtrip_witness :
  Forall value_wf Sample.pairs
  ∧ Forall (λ a, shapeOf Sample.h0 a = shapeOf Sample.h0 (first Sample.pairs))
      Sample.pairs
  ∧ ∃ t, batchConcat Sample.h0 Sample.pairs = Ok t
      ∧ shape t = [2; 2]
      ∧ length (dataSync t) = 2 * 2
      ∧ ∀ i a, Sample.pairs !! i = Some a →
          slice 2 i (dataSync t) = toFloat32 <$> flatValues Sample.h0 a.
Proof.
  assert (Forall value_wf Sample.pairs) as Hwf.
  { repeat constructor. }
  assert (Forall (λ a, shapeOf Sample.h0 a = shapeOf Sample.h0 (first Sample.pairs))
            Sample.pairs) as Hsh.
  { repeat constructor. }
  split_and!; [exact Hwf|exact Hsh|].
  exact (batchConcat_roundtrip Sample.h0 Sample.pairs Hwf Hsh).
Defined.

(** The transposition of the three records gives columns of length 3. *)
Lemma sanity_check_unreachable_witness :
  Sample.abc ≠ []
  ∧ (∃ keys rotated,
        Object_keys (Sample.abc !! 0) = Ok keys
        ∧ rotate keys Sample.abc = Ok rotated
        ∧ ∀ key, key ∈ keys →
            ∃ col, rotated !! key = Some col ∧ length col = 3)
  ∧ ∀ σ key,
      (makeDatasetBatch Sample.h0 Sample.abc σ).1
        ≠ Throw (SanityCheckFailed key).
Proof.
  assert (Sample.abc ≠ []) as Hne by discriminate.
  split; [exact Hne|].
  exact (sanity_check_unreachable Sample.h0 Sample.abc Hne).
Defined.



(** In [[{b: "x"}, {}]] the value of [b] at position 1 is [undefined], and
    the batch keeps it there; in [[{a: 1}, {}]] the batch tensor of [a]
    holds [NaN] at position 1. *)
Lemma missing_key_reads_undefined_witness :
  Sample.missing !! 1 = Some ∅
  ∧ inherits "b" = false
  ∧ column "b" Sample.missing !! 1 = Some None
  ∧ (∃ batch ss, (makeDatasetBatch Sample.h0 Sample.missing []).1 = Ok batch
       ∧ batch !! "b" = Some (BStrings ss) ∧ ss !! 1 = Some None)
  ∧ (makeDatasetBatch Sample.h0 Sample.missing_number []).1
      = Ok Sample.missing_number_batch
  ∧ ∃ t, Sample.missing_number_batch !! "a" = Some (BTensor t)
      ∧ shape t = [2]
      ∧ dataSync t !! 1 = Some (Sample.Fround Sample.NotANumber).
Proof.
  assert (is_Some (({[ "b" := EString "x" ]} : DatasetElement) !! "b")) as Hb.
  { exists (EString "x"). reflexivity. }
  destruct (missing_key_reads_undefined Sample.h0 Sample.missing
              {[ "b" := EString "x" ]} ∅ 1 "b" []
              eq_refl eq_refl Hb eq_refl eq_refl)
    as ((_ & Hcol) & _ & Htext & Hall & _).
  split_and!; [reflexivity|reflexivity|exact Hcol| |reflexivity|].
  - destruct Hall as [batch Hbatch].
    { intros k v Hkv. apply lookup_singleton_Some in Hkv as [_ <-]. by eexists. }
    destruct (Htext "x" batch eq_refl Hbatch) as (ss & Hss & _ & Hi).
    exists batch, ss. split_and!; [exact Hbatch|exact Hss|exact Hi].
  - assert (is_Some (({[ "a" := @ENumber Sample.env (Sample.Lit 1) ]}
                        : DatasetElement) !! "a")) as Ha.
    { exists (@ENumber Sample.env (Sample.Lit 1)). reflexivity. }
    destruct (missing_key_reads_undefined Sample.h0 Sample.missing_number
                {[ "a" := @ENumber Sample.env (Sample.Lit 1) ]} ∅ 1 "a" []
                eq_refl eq_refl Ha eq_refl eq_refl)
      as (_ & _ & _ & _ & _ & Hnan).
    refine (Hnan (@ENumber Sample.env (Sample.Lit 1)) _ eq_refl _ eq_refl _
              eq_refl).
    + intros s. discriminate.
    + repeat constructor.
Defined.

(** In [[{b: "x"}, {b: 1}]] the field [b] is passed through as it is. *)
Lemma text_field_passes_through_witness :
  Sample.mixed !! 0 = Some {[ "b" := EString "x" ]}
  ∧ batchField Sample.h0 (column "b" Sample.mixed)
      = Ok (BStrings [Some (EString "x"); Some (ENumber (Sample.Lit 1))]).
Proof.
  split; [reflexivity|].
  exact (proj1 (text_field_passes_through Sample.h0 Sample.mixed
                  {[ "b" := EString "x" ]} "b" "x" [] eq_refl eq_refl)).
Defined.

(** * Worked examples of the further properties *)

Lemma batchConcat_builds_wf_tensor_witness :
  batchConcat Sample.h0 Sample.pairs
    = Ok (mkTensor [2; 2]
            [Sample.Fround (Sample.Lit 5); Sample.Fround (Sample.Lit 6);
             Sample.Fround (Sample.Lit 1); Sample.Fround (Sample.Lit 2)])
  ∧ tensor_wf (mkTensor [2; 2]
            [Sample.Fround (Sample.Lit 5); Sample.Fround (Sample.Lit 6);
             Sample.Fround (Sample.Lit 1); Sample.Fround (Sample.Lit 2)]).
Proof.
  split; [reflexivity|].
  exact (proj1 (batchConcat_builds_wf_tensor Sample.h0 Sample.pairs _ eq_refl)).
Defined.

(** The column [[1, "2", undefined]] gives the tensor of shape [[3]] with
    the cells [fround(1)], [fround(ToNumber("2"))] and [fround(NaN)]. *)
Lemma batchConcat_scalars_witness :
  Forall scalar_like Sample.scalars
  ∧ batchConcat Sample.h0 Sample.scalars
      = Ok (mkTensor [3]
              [Sample.Fround (Sample.Lit 1);
               Sample.Fround (Sample.OfString "2");
               Sample.Fround Sample.NotANumber]).
Proof.
  assert (Forall scalar_like Sample.scalars) as Hsc.
  { repeat constructor. }
  split; [exact Hsc|].
  exact (batchConcat_scalars Sample.h0 Sample.scalars Hsc).
Defined.

Lemma rows_wf : window_wf Sample.rows.
Proof.
  intros e k v He Hk. destruct v as [x|a|t|s]; try exact I.
  repeat (apply elem_of_cons in He as [->|He]);
    try (by apply not_elem_of_nil in He);
    apply lookup_insert_Some in Hk as [[_ Hk]|[_ Hk]]; try discriminate Hk;
    apply lookup_singleton_Some in Hk as [_ Hk]; discriminate Hk.
Defined.

Lemma makeDatasetBatch_succeeds_iff_witness :
  Sample.rows !! 0
    = Some {[ "a" := EArray 1%positive; "b" := EString "x" ]}
  ∧ window_wf Sample.rows
  ∧ ((∃ batch, (makeDatasetBatch Sample.h0 Sample.rows []).1 = Ok batch)
     ∨ (makeDatasetBatch Sample.h0 Sample.rows []).1 = Throw ShapeMismatch).
Proof.
  split_and!; [reflexivity|exact rows_wf|].
  exact (proj2 (makeDatasetBatch_succeeds_iff Sample.h0 Sample.rows
                  {[ "a" := EArray 1%positive; "b" := EString "x" ]} []
                  eq_refl rows_wf)).
Defined.

Lemma numeric_field_in_batch_witness :
  (makeDatasetBatch Sample.h0 Sample.rows []).1 = Ok Sample.rows_batch
  ∧ ∃ t, Sample.rows_batch !! "a" = Some (BTensor t)
      ∧ shape t = [2; 2]
      ∧ ∀ i e, Sample.rows !! i = Some e →
          slice 2 i (dataSync t)
            = toFloat32 <$> flatValues Sample.h0 (e !! "a").
Proof.
  split; [reflexivity|].
  refine (numeric_field_in_batch Sample.h0 Sample.rows
            {[ "a" := EArray 1%positive; "b" := EString "x" ]} "a"
            (EArray 1%positive) [] Sample.rows_batch
            eq_refl eq_refl _ _ eq_refl).
  - intros s. discriminate.
  - repeat constructor.
Defined.

Lemma batch_fields_independent_witness :
  column "a" Sample.rows = column "a" Sample.rows'
  ∧ Sample.rows_batch !! "a" = Sample.rows'_batch !! "a"
  ∧ is_Some (Sample.rows_batch !! "a").
Proof.
  split; [reflexivity|].
  refine (batch_fields_independent Sample.h0 Sample.rows Sample.rows'
            {[ "a" := EArray 1%positive; "b" := EString "x" ]}
            {[ "a" := EArray 1%positive ]} "a" [] []
            Sample.rows_batch Sample.rows'_batch
            eq_refl eq_refl _ eq_refl eq_refl eq_refl).
  exists (EArray 1%positive). reflexivity.
Defined.

Lemma batch_values_span_window_witness :
  Sample.rows_batch !! "a" = Some (BTensor Sample.rows_tensor)
  ∧ head (shape Sample.rows_tensor) = Some (length Sample.rows).
Proof.
  split; [reflexivity|].
  exact (batch_values_span_window Sample.h0 Sample.rows
           {[ "a" := EArray 1%positive; "b" := EString "x" ]} []
           Sample.rows_batch "a" (BTensor Sample.rows_tensor)
           eq_refl eq_refl eq_refl).
Defined.

(** [[{}, {a: 1}]] gives the empty batch and releases both records. *)
Lemma empty_template_gives_empty_batch_witness :
  Sample.empty_first !! 0 = Some ∅
  ∧ makeDatasetBatch Sample.h0 Sample.empty_first []
      = (Ok ∅, Sample.empty_first).
Proof.
  split; [reflexivity|].
  exact (empty_template_gives_empty_batch Sample.h0 Sample.empty_first []
           eq_refl).
Defined.
